(** * bigd: a bounded fan-out / fan-in pipeline (main.go)

    The Go program lists a directory, keeps the gzipped files, and runs
    [width] goroutines that decompress them; a feeder goroutine offers the
    paths on an unbuffered channel, the workers publish their results on a
    second unbuffered channel, and a tracker closes that channel when the
    wait group reaches zero.

    The goroutines are embedded as an interleaving transition system: every
    blocking point of the source is a control state, every communication
    that can proceed is a labelled step, and [step] is the executable
    one-step function.  A [select] with several ready cases is a state in
    which several labels are enabled.  The caller of [funnel] is the
    environment: it may close [done] once, it receives every Result that a
    worker sends on [c], and it may receive from [errc].  Run-time panics
    of Go (closing a closed channel, sending on a closed channel, a
    negative WaitGroup counter) are steps into a state with [panicked]
    set. *)

From Stdlib Require Import ZArith Lia.
From stdpp Require Import base list strings.

Local Open Scope nat_scope.

(** ** Data model *)

(** A Go [error] value, identified by its message. *)
Record error := errors_New { Error : string }.

(** The part of [os.FileInfo] that the program reads. *)
Record FileInfo := { Name : string; IsDir : bool }.

(** [type filesInfo struct { dir string; fsi []os.FileInfo }] *)
Record filesInfo := { dir : string; fsi : list FileInfo }.

(** [type result struct { path string; data string; err error }] *)
Record result := { rpath : string; rdata : string; rerr : option error }.

(** A Go call returning [(value, error)] where the value is only used when
    the error is nil. *)
Inductive ret (A : Type) : Type :=
| Val (a : A)
| Fail (e : error).
Arguments Val {A} a.
Arguments Fail {A} e.

(** The standard-library calls of the program: the file system and the
    gzip decoder are the environment of a run. *)
Class World := {
  File : Type;
  GzReader : Type;
  ioutil_ReadDir : string → ret (list FileInfo);
  os_Open : string → ret File;
  gzip_NewReader : File → ret GzReader;
  (* ReadAll returns the bytes read so far together with the error. *)
  ioutil_ReadAll : GzReader → string * option error;
  path_Join : string → string → string
}.

(** [const width = 16] *)
Definition width : nat := 16.

(** [strings.HasSuffix]:
    [len(s) >= len(suffix) && s[len(s)-len(suffix):] == suffix] *)
Definition HasSuffix (s suffix : string) : bool :=
  Nat.leb (String.length suffix) (String.length s)
  && String.eqb
       (String.substring (String.length s - String.length suffix)
                  (String.length suffix) s)
       suffix.

(** ** gzFilesInfoIn *)

(** [append(fsi[:k], fsi[k+1:]...)] *)
Definition remove_at (k : nat) (l : list FileInfo) : list FileInfo :=
  take k l ++ drop (S k) l.

(** The entries the loop removes. *)
Definition unwanted (v : FileInfo) : bool :=
  IsDir v || negb (HasSuffix (Name v) ".gz"%string).

(** [for k := len(fsi) - 1; k >= 0; k-- { ... }] with [n = k + 1] iterations
    left; indexing out of range panics ([None]). *)
Fixpoint prune (n : nat) (l : list FileInfo) : option (list FileInfo) :=
  match n with
  | 0 => Some l
  | S k =>
      match l !! k with
      | None => None
      | Some v => prune k (if unwanted v then remove_at k l else l)
      end
  end.

(** The result is Go's pair of a pointer to filesInfo (nil is [None]) and
    an error (nil is [None]); the outer [None] is a panic. *)
Definition gzFilesInfoIn `{World} (d : string)
  : option (option filesInfo * option error) :=
  match ioutil_ReadDir d with
  | Fail e => Some (None, Some e)
  | Val l =>
      match prune (length l) l with
      | None => None
      | Some l' => Some (Some {| dir := d; fsi := l' |}, None)
      end
  end.

(** ** digest: the per-item transformation (lines 89-117) *)

Definition set_err (r : result) (e : error) : result :=
  {| rpath := rpath r; rdata := rdata r; rerr := Some e |}.

Definition set_data (r : result) (d : string) : result :=
  {| rpath := rpath r; rdata := d; rerr := rerr r |}.

(** [r := result{path: p}] followed by the anonymous function that opens,
    decodes and reads the file, returning early on the first error. *)
Definition digest_item `{World} (p : string) : result :=
  let r := {| rpath := p; rdata := ""%string; rerr := None |} in
  match os_Open p with
  | Fail e => set_err r e
  | Val f =>
      match gzip_NewReader f with
      | Fail e => set_err r e
      | Val gzr =>
          match ioutil_ReadAll gzr with
          | (_, Some e) => set_err r e
          | (data, None) => set_data r data
          end
      end
  end.

(** ** The goroutines of funnel and digest *)

(** The goroutine started by [funnel] (lines 140-168). *)
Inductive ctrl_pc :=
| CGoFeeder                 (* about to start the feeder *)
| CAdd                      (* about to call wg.Add(width) *)
| CGoWorker (i : nat)       (* loop test [i < width] *)
| CGoTracker                (* about to start the tracker *)
| CEnd.

(** The feeder (lines 142-152). *)
Inductive feeder_pc :=
| FNotStarted
| FLoop (rest : list FileInfo)     (* loop head, [rest] still to offer *)
| FReport (rest : list FileInfo)   (* at [errc <- errors.New("canceled")] *)
| FEnd.

(** A worker: [digest] followed by [wg.Done()] (lines 157-160, 87-129). *)
Inductive worker_pc :=
| WRecv                      (* at [for p := range paths] *)
| WItem (p : string)         (* holds p, transformation not yet run *)
| WSend (r : result)         (* at [select { case c <- r: case <-done: }] *)
| WRet                       (* digest returned, wg.Done() not yet called *)
| WDone.

(** The tracker (lines 164-167). *)
Inductive tracker_pc :=
| TNotStarted
| TWait                      (* in wg.Wait() *)
| TClose                     (* about to close(c) *)
| TEnd.

Record state := {
  ctrl : ctrl_pc;
  feeder : feeder_pc;
  workers : list worker_pc;
  tracker : tracker_pc;
  wg : Z;                       (* the WaitGroup counter *)
  done : bool;                  (* done is closed *)
  paths_closed : bool;
  c_closed : bool;
  errc : list error;            (* buffer of [make(chan error, 1)] *)
  out : list result;            (* what the reader of c has received *)
  panicked : bool
}.

(** Capacity of [errc]. *)
Definition errc_cap : nat := 1.

Definition canceled : error := errors_New "canceled"%string.

(** State right after the [make] calls of [funnel]. *)
Definition init : state :=
  {| ctrl := CGoFeeder; feeder := FNotStarted; workers := [];
     tracker := TNotStarted; wg := 0%Z; done := false;
     paths_closed := false; c_closed := false; errc := []; out := [];
     panicked := false |}.

Definition set_ctrl (c : ctrl_pc) (s : state) : state :=
  {| ctrl := c; feeder := feeder s; workers := workers s;
     tracker := tracker s; wg := wg s; done := done s;
     paths_closed := paths_closed s; c_closed := c_closed s;
     errc := errc s; out := out s; panicked := panicked s |}.

Definition set_feeder (f : feeder_pc) (s : state) : state :=
  {| ctrl := ctrl s; feeder := f; workers := workers s;
     tracker := tracker s; wg := wg s; done := done s;
     paths_closed := paths_closed s; c_closed := c_closed s;
     errc := errc s; out := out s; panicked := panicked s |}.

Definition set_workers (ws : list worker_pc) (s : state) : state :=
  {| ctrl := ctrl s; feeder := feeder s; workers := ws;
     tracker := tracker s; wg := wg s; done := done s;
     paths_closed := paths_closed s; c_closed := c_closed s;
     errc := errc s; out := out s; panicked := panicked s |}.

Definition set_worker (i : nat) (w : worker_pc) (s : state) : state :=
  set_workers (<[i := w]> (workers s)) s.

Definition set_tracker (t : tracker_pc) (s : state) : state :=
  {| ctrl := ctrl s; feeder := feeder s; workers := workers s;
     tracker := t; wg := wg s; done := done s;
     paths_closed := paths_closed s; c_closed := c_closed s;
     errc := errc s; out := out s; panicked := panicked s |}.

Definition set_wg (n : Z) (s : state) : state :=
  {| ctrl := ctrl s; feeder := feeder s; workers := workers s;
     tracker := tracker s; wg := n; done := done s;
     paths_closed := paths_closed s; c_closed := c_closed s;
     errc := errc s; out := out s; panicked := panicked s |}.

Definition set_done (s : state) : state :=
  {| ctrl := ctrl s; feeder := feeder s; workers := workers s;
     tracker := tracker s; wg := wg s; done := true;
     paths_closed := paths_closed s; c_closed := c_closed s;
     errc := errc s; out := out s; panicked := panicked s |}.

Definition set_paths_closed (s : state) : state :=
  {| ctrl := ctrl s; feeder := feeder s; workers := workers s;
     tracker := tracker s; wg := wg s; done := done s;
     paths_closed := true; c_closed := c_closed s;
     errc := errc s; out := out s; panicked := panicked s |}.

Definition set_c_closed (s : state) : state :=
  {| ctrl := ctrl s; feeder := feeder s; workers := workers s;
     tracker := tracker s; wg := wg s; done := done s;
     paths_closed := paths_closed s; c_closed := true;
     errc := errc s; out := out s; panicked := panicked s |}.

Definition set_errc (b : list error) (s : state) : state :=
  {| ctrl := ctrl s; feeder := feeder s; workers := workers s;
     tracker := tracker s; wg := wg s; done := done s;
     paths_closed := paths_closed s; c_closed := c_closed s;
     errc := b; out := out s; panicked := panicked s |}.

Definition set_out (o : list result) (s : state) : state :=
  {| ctrl := ctrl s; feeder := feeder s; workers := workers s;
     tracker := tracker s; wg := wg s; done := done s;
     paths_closed := paths_closed s; c_closed := c_closed s;
     errc := errc s; out := o; panicked := panicked s |}.

(** A run-time panic (close of a closed channel, send on a closed channel,
    negative WaitGroup counter) ends the program. *)
Definition panic (s : state) : state :=
  {| ctrl := ctrl s; feeder := feeder s; workers := workers s;
     tracker := tracker s; wg := wg s; done := done s;
     paths_closed := paths_closed s; c_closed := c_closed s;
     errc := errc s; out := out s; panicked := true |}.

(** The steps.  [Cancel] and [TakeErr] belong to the caller of [funnel]
    (closing [done], receiving from [errc]); the reader of [c] takes part
    in [Publish]. *)
Inductive label :=
| Spawn                 (* one statement of the goroutine of funnel *)
| Offer (i : nat)       (* [paths <- ...] meets the receive of worker i *)
| FeedDone              (* the feeder's [<-done] case *)
| FeedReport            (* [errc <- errors.New("canceled")] completes *)
| FeedClose             (* [close(paths)] *)
| RecvClosed (i : nat)  (* worker i finds paths closed and drained *)
| Transform (i : nat)   (* worker i runs lines 89-117 *)
| Publish (i : nat)     (* [c <- r] of worker i meets the reader *)
| Abandon (i : nat)     (* worker i's [<-done] case: return *)
| WgDone (i : nat)      (* [wg.Done()] *)
| WaitReturn            (* [wg.Wait()] returns *)
| CloseOut              (* [close(c)] *)
| Cancel                (* [close(done)] by the caller *)
| TakeErr.              (* the caller receives from errc *)

Definition is_env (l : label) : bool :=
  match l with Cancel | TakeErr => true | _ => false end.

Section Pipeline.
Context `{World}.
Variable fi : filesInfo.

(** The value sent for entry [v]: [path.Join(fsi.dir, v.Name())]. *)
Definition item_path (v : FileInfo) : string := path_Join (dir fi) (Name v).

Definition spawn_step (s : state) : option state :=
  match ctrl s with
  | CGoFeeder => Some (set_ctrl CAdd (set_feeder (FLoop (fsi fi)) s))
  | CAdd =>
      let n := (wg s + Z.of_nat width)%Z in
      if (n <? 0)%Z then Some (panic s)
      else Some (set_ctrl (CGoWorker 0) (set_wg n s))
  | CGoWorker i =>
      if i <? width
      then Some (set_ctrl (CGoWorker (S i))
                   (set_workers (workers s ++ [WRecv]) s))
      else Some (set_ctrl CGoTracker s)
  | CGoTracker => Some (set_ctrl CEnd (set_tracker TWait s))
  | CEnd => None
  end.

Definition step (l : label) (s : state) : option state :=
  if panicked s then None else
  match l with
  | Spawn => spawn_step s
  | Offer i =>
      match feeder s, workers s !! i with
      | FLoop (v :: rest), Some WRecv =>
          if paths_closed s then Some (panic s)
          else Some (set_feeder (FLoop rest)
                       (set_worker i (WItem (item_path v)) s))
      | _, _ => None
      end
  | FeedDone =>
      match feeder s with
      | FLoop (v :: rest) =>
          if done s then Some (set_feeder (FReport rest) s) else None
      | _ => None
      end
  | FeedReport =>
      match feeder s with
      | FReport rest =>
          if length (errc s) <? errc_cap
          then Some (set_feeder (FLoop rest)
                       (set_errc (errc s ++ [canceled]) s))
          else None
      | _ => None
      end
  | FeedClose =>
      match feeder s with
      | FLoop [] =>
          if paths_closed s then Some (panic s)
          else Some (set_feeder FEnd (set_paths_closed s))
      | _ => None
      end
  | RecvClosed i =>
      match workers s !! i with
      | Some WRecv =>
          if paths_closed s then Some (set_worker i WRet s) else None
      | _ => None
      end
  | Transform i =>
      match workers s !! i with
      | Some (WItem p) => Some (set_worker i (WSend (digest_item p)) s)
      | _ => None
      end
  | Publish i =>
      match workers s !! i with
      | Some (WSend r) =>
          if c_closed s then Some (panic s)
          else Some (set_out (out s ++ [r]) (set_worker i WRecv s))
      | _ => None
      end
  | Abandon i =>
      match workers s !! i with
      | Some (WSend r) =>
          if done s then Some (set_worker i WRet s) else None
      | _ => None
      end
  | WgDone i =>
      match workers s !! i with
      | Some WRet =>
          let n := (wg s - 1)%Z in
          if (n <? 0)%Z then Some (panic s)
          else Some (set_wg n (set_worker i WDone s))
      | _ => None
      end
  | WaitReturn =>
      match tracker s with
      | TWait => if (wg s =? 0)%Z then Some (set_tracker TClose s) else None
      | _ => None
      end
  | CloseOut =>
      match tracker s with
      | TClose =>
          if c_closed s then Some (panic s)
          else Some (set_tracker TEnd (set_c_closed s))
      | _ => None
      end
  | Cancel => if done s then None else Some (set_done s)
  | TakeErr =>
      match errc s with
      | e :: b => Some (set_errc b s)
      | [] => None
      end
  end.

(** An execution: the labels taken, in order. *)
Fixpoint run (t : list label) (s : state) : option state :=
  match t with
  | [] => Some s
  | l :: t' =>
      match step l s with
      | Some s' => run t' s'
      | None => None
      end
  end.

End Pipeline.

(** ** Observations on states *)

Definition is_done (w : worker_pc) : bool :=
  match w with WDone => true | _ => false end.

(** The worker has left [digest] for good. *)
Definition exited (w : worker_pc) : bool :=
  match w with WRet | WDone => true | _ => false end.

Definition count_done (ws : list worker_pc) : nat :=
  sum_list_with (λ w, if is_done w then 1 else 0) ws.

(** Workers started so far, by the position of the goroutine of funnel. *)
Definition spawned (c : ctrl_pc) : nat :=
  match c with
  | CGoFeeder | CAdd => 0
  | CGoWorker i => i
  | CGoTracker | CEnd => width
  end.

Definition added (c : ctrl_pc) : bool :=
  match c with CGoFeeder | CAdd => false | _ => true end.

Definition feeder_ended (f : feeder_pc) : bool :=
  match f with FEnd => true | _ => false end.

Definition tracker_ended (t : tracker_pc) : bool :=
  match t with TEnd => true | _ => false end.

(** Entries the feeder has still to offer. *)
Definition pending (fi : filesInfo) (f : feeder_pc) : list FileInfo :=
  match f with
  | FNotStarted => fsi fi
  | FLoop rest | FReport rest => rest
  | FEnd => []
  end.

(** The result a worker is holding or is about to compute. *)
Definition in_flight `{World} (w : worker_pc) : list result :=
  match w with
  | WItem p => [digest_item p]
  | WSend r => [r]
  | _ => []
  end.

(** The structural invariant of the wiring in [funnel]. *)
Record Inv (s : state) : Prop := {
  inv_panic : panicked s = false;
  inv_len : length (workers s) = spawned (ctrl s);
  inv_spawned : spawned (ctrl s) ≤ width;
  inv_wg : wg s = if added (ctrl s)
                  then (Z.of_nat width - Z.of_nat (count_done (workers s)))%Z
                  else 0%Z;
  inv_feeder : feeder s = FNotStarted ↔ ctrl s = CGoFeeder;
  inv_tracker : tracker s = TNotStarted ↔ ctrl s ≠ CEnd;
  inv_paths : paths_closed s = feeder_ended (feeder s);
  inv_c : c_closed s = tracker_ended (tracker s);
  inv_wait : tracker s = TClose ∨ tracker s = TEnd → wg s = 0%Z;
  inv_errc : length (errc s) ≤ errc_cap
}.

(** ** Fuel: a bound on the steps left *)

Definition ctrl_fuel (c : ctrl_pc) : nat :=
  match c with
  | CGoFeeder => 3 * width + 4
  | CAdd => 3 * width + 3
  | CGoWorker i => 3 * (width - i) + 2
  | CGoTracker => 1
  | CEnd => 0
  end.

Definition feeder_fuel (fi : filesInfo) (f : feeder_pc) : nat :=
  match f with
  | FNotStarted => 3 * length (fsi fi) + 1
  | FLoop rest => 3 * length rest + 1
  | FReport rest => 3 * length rest + 2
  | FEnd => 0
  end.

Definition worker_fuel (w : worker_pc) : nat :=
  match w with
  | WRecv => 2
  | WItem _ => 4
  | WSend _ => 3
  | WRet => 1
  | WDone => 0
  end.

Definition tracker_fuel (t : tracker_pc) : nat :=
  match t with
  | TNotStarted | TWait => 2
  | TClose => 1
  | TEnd => 0
  end.

Definition fuel (fi : filesInfo) (s : state) : nat :=
  ctrl_fuel (ctrl s) + feeder_fuel fi (feeder s)
  + sum_list_with worker_fuel (workers s) + tracker_fuel (tracker s).

(** Steps of the pipeline's own goroutines in a trace. *)
Definition own_steps (t : list label) : nat :=
  length (filter (λ l, is_env l = false) t).

(** Bound on the number of steps of an execution over [n] entries. *)
Definition step_bound (n : nat) : nat := 3 * n + 3 * width + 7.

(** ** Executions without cancellation *)

(** The results owed for the entries [l]. *)
Definition expected `{World} (fi : filesInfo) (l : list FileInfo)
  : list result :=
  map (λ v, digest_item (item_path fi v)) l.

Definition is_cancel (l : label) : bool :=
  match l with Cancel => true | _ => false end.

(** [done] is never closed during the execution. *)
Definition no_cancel (t : list label) : bool :=
  forallb (λ l, negb (is_cancel l)) t.

(** While nobody cancels: the error slot is empty, the feeder is never at
    the error report, a worker leaves [digest] only through the closed
    intake, and every entry is either still with the feeder, with a
    worker, or received by the reader. *)
Record Clean `{World} (fi : filesInfo) (s : state) : Prop := {
  cl_done : done s = false;
  cl_errc : errc s = [];
  cl_feeder : ∀ rest, feeder s ≠ FReport rest;
  cl_exit : Forall (λ w, exited w = true → paths_closed s = true) (workers s);
  cl_acct :
    out s ++ concat (map in_flight (workers s))
          ++ expected fi (pending fi (feeder s))
    ≡ₚ expected fi (fsi fi)
}.

(** ** Scheduling *)

(** The labels of the pipeline's own goroutines. *)
Definition worker_labels (i : nat) : list label :=
  [Offer i; RecvClosed i; Transform i; Publish i; Abandon i; WgDone i].

Definition own_labels : list label :=
  [Spawn; FeedDone; FeedReport; FeedClose; WaitReturn; CloseOut]
  ++ concat (map worker_labels (seq 0 width)).

(** No goroutine of the pipeline can move. *)
Definition stuck `{World} (fi : filesInfo) (s : state) : bool :=
  forallb (λ l, match step fi l s with None => true | Some _ => false end)
          own_labels.

(** A scheduler that always takes the first enabled label of [pref]. *)
Fixpoint schedule `{World} (fi : filesInfo) (pref : list label) (n : nat)
    (s : state) : list label :=
  match n with
  | 0 => []
  | S n' =>
      match list_find (λ l, is_Some (step fi l s)) pref with
      | Some (_, l) =>
          match step fi l s with
          | Some s' => l :: schedule fi pref n' s'
          | None => []
          end
      | None => []
      end
  end.

(** ** Events and states named in the claims *)



(** All [width] workers have returned from [digest] and called
    [wg.Done()]. *)
Definition all_done (s : state) : Prop :=
  length (workers s) = width ∧ Forall (λ w, w = WDone) (workers s).







(** Labels that hand over, transform, publish or drop an item, or report
    or take an error. *)
Definition is_item_label (l : label) : bool :=
  match l with
  | Offer _ | Transform _ | Publish _ | Abandon _ | FeedDone | FeedReport
  | TakeErr => true
  | _ => false
  end.

(** The feeder has nothing to offer. *)
Definition idle_feeder (f : feeder_pc) : Prop :=
  f = FNotStarted ∨ f = FLoop [] ∨ f = FEnd.

(** The worker never held an item. *)
Definition idle_worker (w : worker_pc) : Prop :=
  w = WRecv ∨ w = WRet ∨ w = WDone.

Record Idle (s : state) : Prop := {
  id_out : out s = [];
  id_errc : errc s = [];
  id_feeder : idle_feeder (feeder s);
  id_workers : Forall idle_worker (workers s);
  id_exit : Forall (λ w, exited w = true → paths_closed s = true) (workers s)
}.

(** The Result of a failed item: the path, no data, the error. *)
Definition failed (p : string) (e : error) : result :=
  {| rpath := p; rdata := ""%string; rerr := Some e |}.

(** The entries the listing should keep: regular files named [*.gz]. *)
Definition gz_file (v : FileInfo) : Prop :=
  IsDir v = false ∧ ∃ stem, Name v = (stem +:+ ".gz")%string.

Definition keep (v : FileInfo) : bool := negb (unwanted v).

(** ** Further observations on executions *)

(** The worker holds an item: it is transforming it or publishing its
    Result. *)
Definition busy (w : worker_pc) : bool :=
  match w with WItem _ | WSend _ => true | _ => false end.

(** Number of items held by workers. *)
Definition in_progress (s : state) : nat :=
  length (List.filter busy (workers s)).

(** Number of times [done] is closed in an execution. *)
Definition cancels (t : list label) : nat :=
  length (List.filter is_cancel t).

(** The Results received, held by workers, and still owed for the entries
    the feeder has not offered. *)
Definition owed `{World} (fi : filesInfo) (s : state) : list result :=
  out s ++ concat (map in_flight (workers s))
        ++ expected fi (pending fi (feeder s)).

(** Where the contents of the error channel and the exits of the workers
    come from. *)
Record Traced (s : state) : Prop := {
  tr_errc : Forall (λ e, e = canceled) (errc s);
  tr_full : errc s ≠ [] → done s = true;
  tr_report : ∀ rest, feeder s = FReport rest → done s = true;
  tr_exit : Forall (λ w, exited w = true →
                         paths_closed s = true ∨ done s = true) (workers s)
}.

(** The paths received by workers from the intake, in the order of the
    receptions. *)
Fixpoint offered `{World} (fi : filesInfo) (t : list label) (s : state)
  : list string :=
  match t with
  | [] => []
  | l :: t' =>
      match step fi l s with
      | None => []
      | Some s' =>
          match l with
          | Offer i =>
              match workers s' !! i with
              | Some (WItem p) => p :: offered fi t' s'
              | _ => offered fi t' s'
              end
          | _ => offered fi t' s'
          end
      end
  end.

Definition is_take (l : label) : bool :=
  match l with TakeErr => true | _ => false end.

Definition is_report (l : label) : bool :=
  match l with FeedReport => true | _ => false end.

(** Receptions from [errc] by the caller, and reports by the feeder. *)
Definition takes (t : list label) : nat := length (List.filter is_take t).
Definition reports (t : list label) : nat :=
  length (List.filter is_report t).

Definition is_abandon (l : label) : bool :=
  match l with Abandon _ => true | _ => false end.

(** Results dropped at the publishing select in an execution. *)
Definition abandons (t : list label) : nat :=
  length (List.filter is_abandon t).

Definition exit_bit (w : worker_pc) : nat := if exited w then 1 else 0.

(** Workers that have left [digest]. *)
Definition exited_count (s : state) : nat :=
  sum_list_with exit_bit (workers s).

(** ** main (lines 173-225)

    [main] lists the directory, starts [funnel] and reads the stream:
    for every Result it first polls [errc] (a select with a default case)
    and either prints the error and exits with status 1 or prints the
    Result.  After the loop it writes the heap profile, stops the signal
    monitor and returns, which runs the deferred [close(done)].

    The flag parsing is left out.  The signal monitor and the profile
    writer are libraries: a signal is the step [Pipe Cancel], which runs
    the handler [close(done)] (one signal at most is considered), and the
    result of [vitals.WriteHeapProfile] is given by the label [Profile].
    [os.Exit] and the return of [main] end all goroutines. *)

(** Outcome of the call of [gzFilesInfoIn] at the start of [main]. *)
Inductive boot :=
| BootExit (e : error)        (* the error is printed, os.Exit(1) *)
| BootRun (fi : filesInfo)    (* funnel is started on fi *)
| BootPanic.

(** [fsi, err := gzFilesInfoIn("./testdata/"); if err != nil { ... }] *)
Definition boot_main `{World} : boot :=
  match gzFilesInfoIn "./testdata/" with
  | None => BootPanic
  | Some (_, Some e) => BootExit e
  | Some (Some fi, None) => BootRun fi
  | Some (None, None) => BootPanic     (* fsi.fsi on a nil pointer *)
  end.

Inductive main_pc :=
| MRange                  (* at [for r := range rs] *)
| MSelect (r : result)    (* at the select on errc, holding r *)
| MProfile                (* the loop is over *)
| MExit (code : Z)        (* os.Exit(code) *)
| MReturned               (* main has returned, done closed by the defer *)
| MPanicked.              (* the deferred close(done) hit a closed channel *)

Record mstate := {
  pipe : state;
  pc : main_pc;
  stdout : list result;     (* fmt.Println(r.path, r.data, r.err) *)
  stderr : list error       (* fmt.Fprintln(os.Stderr, err) *)
}.

Inductive mlabel :=
| Pipe (l : label)          (* a step of the pipeline; Cancel is a signal *)
| Select                    (* the select of main *)
| RangeEnd                  (* range finds rs closed *)
| Profile (e : option error).   (* vitals.WriteHeapProfile, then return *)

Definition minit : mstate :=
  {| pipe := init; pc := MRange; stdout := []; stderr := [] |}.

Definition with_pipe (p : state) (m : mstate) : mstate :=
  {| pipe := p; pc := pc m; stdout := stdout m; stderr := stderr m |}.

Definition running (p : main_pc) : bool :=
  match p with MRange | MSelect _ | MProfile => true | _ => false end.

Definition mstep `{World} (fi : filesInfo) (l : mlabel) (m : mstate)
  : option mstate :=
  if running (pc m) then
    match l with
    | Pipe TakeErr => None
    | Pipe (Publish i) =>
        match pc m, workers (pipe m) !! i with
        | MRange, Some (WSend r) =>
            match step fi (Publish i) (pipe m) with
            | Some p => Some {| pipe := p; pc := MSelect r;
                                stdout := stdout m; stderr := stderr m |}
            | None => None
            end
        | _, _ => None
        end
    | Pipe l' =>
        match step fi l' (pipe m) with
        | Some p => Some (with_pipe p m)
        | None => None
        end
    | Select =>
        match pc m with
        | MSelect r =>
            match errc (pipe m) with
            | e :: b =>
                Some {| pipe := set_errc b (pipe m); pc := MExit 1;
                        stdout := stdout m; stderr := stderr m ++ [e] |}
            | [] =>
                Some {| pipe := pipe m; pc := MRange;
                        stdout := stdout m ++ [r]; stderr := stderr m |}
            end
        | _ => None
        end
    | RangeEnd =>
        match pc m with
        | MRange =>
            if c_closed (pipe m)
            then Some {| pipe := pipe m; pc := MProfile;
                         stdout := stdout m; stderr := stderr m |}
            else None
        | _ => None
        end
    | Profile r =>
        match pc m with
        | MProfile =>
            match r with
            | Some e =>
                Some {| pipe := pipe m; pc := MExit 1;
                        stdout := stdout m; stderr := stderr m ++ [e] |}
            | None =>
                if done (pipe m)
                then Some {| pipe := pipe m; pc := MPanicked;
                             stdout := stdout m; stderr := stderr m |}
                else Some {| pipe := set_done (pipe m); pc := MReturned;
                             stdout := stdout m; stderr := stderr m |}
            end
        | _ => None
        end
    end
  else None.

Fixpoint mrun `{World} (fi : filesInfo) (t : list mlabel) (m : mstate)
  : option mstate :=
  match t with
  | [] => Some m
  | l :: t' =>
      match mstep fi l m with
      | Some m' => mrun fi t' m'
      | None => None
      end
  end.

(** The states of the pipeline that some execution reaches. *)
Definition reachable `{World} (fi : filesInfo) (s : state) : Prop :=
  ∃ t, run fi t init = Some s.

(** What main has printed and holds, against what the pipeline has
    delivered. *)
Definition MInv `{World} (fi : filesInfo) (m : mstate) : Prop :=
  reachable fi (pipe m) ∧
  match pc m with
  | MRange => out (pipe m) = stdout m ∧ stderr m = []
  | MSelect r => out (pipe m) = stdout m ++ [r] ∧ stderr m = []
  | MProfile =>
      out (pipe m) = stdout m ∧ stderr m = [] ∧ c_closed (pipe m) = true
  | MExit c =>
      c = 1%Z ∧
      ((∃ r, out (pipe m) = stdout m ++ [r]) ∧ stderr m = [canceled] ∧
       done (pipe m) = true
       ∨ out (pipe m) = stdout m ∧ (∃ e, stderr m = [e]) ∧
         c_closed (pipe m) = true)
  | MReturned | MPanicked =>
      out (pipe m) = stdout m ∧ stderr m = [] ∧ c_closed (pipe m) = true ∧
      done (pipe m) = true
  end.

(** No signal is delivered during the execution. *)
Definition no_signal (t : list mlabel) : bool :=
  forallb (λ l, match l with Pipe Cancel => false | _ => true end) t.

(** What main has received from [rs] and not printed. *)
Definition in_hand (p : main_pc) : list result :=
  match p with MSelect r => [r] | _ => [] end.

(** A scheduler for main: the select first, then the pipeline, then the
    end of the range. *)
Fixpoint mschedule `{World} (fi : filesInfo) (n : nat) (m : mstate)
  : list mlabel :=
  match n with
  | 0 => []
  | S n' =>
      match list_find (λ l, is_Some (mstep fi l m))
              (Select :: map Pipe own_labels ++ [RangeEnd]) with
      | Some (_, l) =>
          match mstep fi l m with
          | Some m' => l :: mschedule fi n' m'
          | None => []
          end
      | None => []
      end
  end.

Definition loop_over (p : main_pc) : bool :=
  match p with MRange | MSelect _ => false | _ => true end.

Definition pc_fuel (p : main_pc) : nat :=
  match p with MSelect _ => 3 | MRange => 2 | MProfile => 1 | _ => 0 end.

Definition mfuel (fi : filesInfo) (m : mstate) : nat :=
  2 * fuel fi (pipe m) + pc_fuel (pc m).

Definition is_signal (l : mlabel) : bool :=
  match l with Pipe Cancel => true | _ => false end.

(** What holds of main as long as no signal arrives. *)
Record QInv `{World} (fi : filesInfo) (m : mstate) : Prop := {
  q_main : MInv fi m;
  q_inv : Inv (pipe m);
  q_clean : running (pc m) = true → Clean fi (pipe m);
  q_all : loop_over (pc m) = true → stdout m ≡ₚ expected fi (fsi fi);
  q_panic : pc m ≠ MPanicked;
  q_exit : ∀ c, pc m = MExit c →
             c_closed (pipe m) = true ∧ ∃ e, stderr m = [e]
}.

(** ** A small file system (the scenario of two files, one corrupt) *)

Module Demo.

Definition gz (n : string) : FileInfo := {| Name := n; IsDir := false |}.

Definition listing : list FileInfo :=
  [ gz "a.gz"; {| Name := "old.gz"; IsDir := true |}; gz "b.gz";
    gz "notes.txt"; gz "c.gz" ].

(** A file is its content; a decoder is the decompressed text and the
    error hit at its end, if any. *)
#[export] Instance world : World := {|
  File := string;
  GzReader := string * option error;
  ioutil_ReadDir d :=
    if String.eqb d "testdata" then Val listing
    else Fail (errors_New "open: no such file or directory");
  os_Open p :=
    if String.eqb p "testdata/a.gz" then Val "gzip:hello"%string
    else if String.eqb p "testdata/b.gz" then Val "corrupt"%string
    else if String.eqb p "testdata/c.gz" then Val "gzip:hel"%string
    else Fail (errors_New "open: no such file or directory");
  gzip_NewReader f :=
    if String.eqb f "gzip:hello" then Val ("hello"%string, None)
    else if String.eqb f "gzip:hel"
         then Val ("hel"%string, Some (errors_New "unexpected EOF"))
    else Fail (errors_New "gzip: invalid header");
  ioutil_ReadAll r := r;
  path_Join d n := (d +:+ "/" +:+ n)%string
|}.

Definition two : filesInfo :=
  {| dir := "testdata"; fsi := [gz "a.gz"; gz "b.gz"] |}.

Definition three : filesInfo :=
  {| dir := "testdata"; fsi := [gz "a.gz"; gz "b.gz"; gz "c.gz"] |}.

Definition none : filesInfo := {| dir := "testdata"; fsi := [] |}.

(** An execution in which nobody cancels, run until nothing can move. *)
Definition calm (fi : filesInfo) : list label :=
  schedule fi own_labels 200 init.

(** All goroutines of [funnel] started, nothing else done. *)
Definition setup : list label := replicate 20 Spawn.

(** Worker 0 holds the result for the first entry when [done] is closed. *)
Definition at_select : list label :=
  setup ++ [Offer 0; Transform 0; Cancel].

(** [done] is closed while the feeder is offering the first entry and no
    worker has been started yet; the feeder takes its [<-done] case and
    reports. *)
Definition early_cancel : list label := [Spawn; Cancel; FeedDone; FeedReport].

(** ... then the first worker is started and receives the second entry. *)
Definition keeps_offering : list label :=
  early_cancel ++ [Spawn; Spawn; Offer 0].

(** ... or the feeder takes the [<-done] case again for the second entry. *)
Definition second_report : list label := early_cancel ++ [FeedDone].

(** ... and the remaining goroutines are started. *)
Definition deadlock : list label := second_report ++ replicate 19 Spawn.

(** ... or the caller takes the first report and the feeder writes again. *)
Definition double_report : list label :=
  second_report ++ [TakeErr; FeedReport].

End Demo.

Import Demo.

Module Disk.

(** The file system of [Demo], seen from the directory main reads. *)
Definition world : World := {|
  File := string;
  GzReader := string * option error;
  ioutil_ReadDir d :=
    if String.eqb d "./testdata/" then Val Demo.listing
    else Fail (errors_New "open: no such file or directory");
  os_Open p := os_Open (World := Demo.world) p;
  gzip_NewReader f := gzip_NewReader (World := Demo.world) f;
  ioutil_ReadAll r := r;
  path_Join d n := ("testdata/" +:+ n)%string
|}.

Definition listed : filesInfo :=
  {| dir := "./testdata/";
     fsi := [Demo.gz "a.gz"; Demo.gz "b.gz"; Demo.gz "c.gz"] |}.

End Disk.

(** * Proofs *)

(** ** Lists of workers updated in place *)

Lemma sum_insert {A} (f : A → nat) (l : list A) i x y :
  l !! i = Some x →
  sum_list_with f (<[i:=y]> l) + f x = sum_list_with f l + f y.
Proof.
  revert i. induction l as [|a l IH]; intros [|i] Hi; simplify_eq/=.
  - lia.
  - specialize (IH _ Hi). lia.
Qed.

Lemma count_done_insert ws i w w' :
  ws !! i = Some w →
  count_done (<[i:=w']> ws) + (if is_done w then 1 else 0)
  = count_done ws + (if is_done w' then 1 else 0).
Proof. apply sum_insert. Qed.

Lemma count_done_snoc ws w :
  count_done (ws ++ [w]) = count_done ws + (if is_done w then 1 else 0).
Proof. unfold count_done. rewrite sum_list_with_app. simpl. lia. Qed.

Lemma count_done_le ws : count_done ws ≤ length ws.
Proof. induction ws as [|w ws IH]; simpl; [lia|]. destruct (is_done w); lia. Qed.

Lemma count_done_lt ws i w :
  ws !! i = Some w → is_done w = false → count_done ws < length ws.
Proof.
  revert i. induction ws as [|a ws IH]; intros [|i] Hi Hw; simplify_eq/=.
  - rewrite Hw. pose proof (count_done_le ws). unfold count_done in *. lia.
  - specialize (IH _ Hi Hw). unfold count_done in *. destruct (is_done a); lia.
Qed.

Lemma count_done_all ws :
  count_done ws = length ws → Forall (λ w, w = WDone) ws.
Proof.
  induction ws as [|a ws IH]; simpl; intros Hc; [constructor|].
  pose proof (count_done_le ws) as Hle. unfold count_done in *.
  destruct a; simpl in *; try lia.
  constructor; [done|]. apply IH. lia.
Qed.

Lemma flat_insert {A B} (g : A → list B) (l : list A) i x y :
  l !! i = Some x →
  concat (map g (<[i:=y]> l)) ++ g x ≡ₚ concat (map g l) ++ g y.
Proof.
  revert i. induction l as [|a l IH]; intros [|i] Hi; simplify_eq/=.
  - rewrite (comm (++) (g y ++ _) (g x)), (assoc (++) (g x)).
    rewrite (comm (++) (g x) (g y)), <- (assoc (++) (g y)).
    by rewrite (comm (++) (g y)).
  - rewrite <- !(assoc (++)). apply Permutation_app_head. by apply IH.
Qed.

(** ** The structural invariant holds in every reachable state *)

Ltac inv_step Hs :=
  unfold step, spawn_step in Hs;
  repeat case_match; simplify_eq.

Ltac norm :=
  repeat match goal with
  | H : (_ <? _)%Z = true |- _ => apply Z.ltb_lt in H
  | H : (_ <? _)%Z = false |- _ => apply Z.ltb_ge in H
  | H : (_ =? _)%Z = true |- _ => apply Z.eqb_eq in H
  | H : (_ <? _) = true |- _ => apply Nat.ltb_lt in H
  | H : (_ <? _) = false |- _ => apply Nat.ltb_ge in H
  end.

Ltac push_eqs :=
  repeat match goal with
  | H : ctrl ?s = _ |- _ => progress (rewrite H in * )
  | H : feeder ?s = _ |- _ => progress (rewrite H in * )
  | H : tracker ?s = _ |- _ => progress (rewrite H in * )
  | H : paths_closed ?s = _ |- _ => progress (rewrite H in * )
  | H : c_closed ?s = _ |- _ => progress (rewrite H in * )
  | H : done ?s = _ |- _ => progress (rewrite H in * )
  | H : errc ?s = _ |- _ => progress (rewrite H in * )
  end.

Ltac count_upd :=
  match goal with
  | H : workers ?s !! ?i = Some ?w
    |- context [count_done (<[?i:=?w']> (workers ?s))] =>
      let X := fresh "Hcd" in
      pose proof (count_done_insert _ _ _ w' H) as X; simpl in X
  end.

Lemma Inv_started s : Inv s → tracker s ≠ TNotStarted → ctrl s = CEnd.
Proof.
  intros HI Ht. destruct (ctrl s) eqn:Hc; [..|reflexivity];
    exfalso; apply Ht; apply (inv_tracker _ HI); rewrite Hc; discriminate.
Qed.

(** Once [wg.Wait()] has returned every one of the [width] workers has
    called [wg.Done()]. *)
Lemma Inv_all_done s :
  Inv s → tracker s = TClose ∨ tracker s = TEnd →
  length (workers s) = width ∧ Forall (λ w, w = WDone) (workers s).
Proof.
  intros HI Ht.
  assert (ctrl s = CEnd) as Hc.
  { apply Inv_started; [done|].
    intros Hn; rewrite Hn in Ht; destruct Ht; discriminate. }
  pose proof (inv_wg _ HI) as Hwg. pose proof (inv_len _ HI) as Hl.
  rewrite Hc in Hwg, Hl. simpl in *.
  rewrite (inv_wait _ HI Ht) in Hwg.
  split; [done|]. apply count_done_all. lia.
Qed.

Lemma Inv_busy s i w :
  Inv s → workers s !! i = Some w → is_done w = false →
  (1 ≤ wg s)%Z ∧ tracker s ≠ TClose ∧ tracker s ≠ TEnd.
Proof.
  intros HI Hi Hw.
  assert (tracker s ≠ TClose ∧ tracker s ≠ TEnd) as Ht.
  { split; intros Ht;
      (destruct (Inv_all_done s HI) as [_ Hall]; [auto|]);
      rewrite Forall_lookup in Hall; specialize (Hall _ _ Hi);
      subst w; done. }
  split; [|done].
  pose proof (count_done_lt _ _ _ Hi Hw) as Hlt.
  pose proof (inv_len _ HI) as Hl. pose proof (inv_spawned _ HI) as Hsp.
  pose proof (inv_wg _ HI) as Hwg.
  destruct (ctrl s); simpl in *; try lia.
Qed.

Section Safety.
Context `{World}.
Variable fi : filesInfo.

Lemma Inv_init : Inv init.
Proof.
  split; simpl; try done; try lia.
Qed.

Lemma Inv_step l s s' : Inv s → step fi l s = Some s' → Inv s'.
Proof.
  intros HI Hs.
  destruct l; inv_step Hs; norm;
    try match goal with
    | Hw : workers s !! ?i = Some ?w |- _ =>
        let X := fresh "Hbusy" in
        pose proof (Inv_busy s i w HI Hw eq_refl) as X
    end;
    destruct HI; push_eqs; split; simpl in *;
    rewrite ?length_insert, ?length_app, ?count_done_snoc; simpl;
    try count_upd;
    try done; try lia; try (intuition (congruence || lia)).
  all: pose proof (count_done_le (workers s));
    destruct (added (ctrl s)); destruct (feeder s) eqn:?;
    destruct (tracker s) eqn:?; simpl in *;
    try lia; intuition (congruence || lia).
Qed.

Lemma Inv_run t s s' : Inv s → run fi t s = Some s' → Inv s'.
Proof.
  revert s. induction t as [|l t IH]; intros s HI Hr; simpl in Hr.
  - by simplify_eq.
  - destruct (step fi l s) as [s1|] eqn:Hs; [|done].
    eapply IH; [|done]. by eapply Inv_step.
Qed.

Lemma Inv_reachable t s : run fi t init = Some s → Inv s.
Proof. apply Inv_run, Inv_init. Qed.

(** No reachable state has panicked: no channel is closed twice, nothing
    is sent on a closed channel, the WaitGroup counter stays at or above
    zero. *)
Lemma no_panic t s : run fi t init = Some s → panicked s = false.
Proof. intros Hr. apply inv_panic. by eapply Inv_reachable. Qed.

Lemma run_app t1 t2 s :
  run fi (t1 ++ t2) s = run fi t1 s ≫= run fi t2.
Proof.
  revert s. induction t1 as [|l t1 IH]; intros s; simpl; [done|].
  destruct (step fi l s); simpl; [apply IH|done].
Qed.

End Safety.

(** ** Termination: every step of a goroutine uses up fuel *)

Ltac fuel_upd :=
  match goal with
  | H : workers ?s !! ?i = Some ?w
    |- context [sum_list_with worker_fuel (<[?i:=?w']> (workers ?s))] =>
      let X := fresh "Hfu" in
      pose proof (sum_insert worker_fuel _ _ _ w' H) as X; simpl in X
  end.

Section Liveness.
Context `{World}.
Variable fi : filesInfo.

Lemma fuel_init : fuel fi init = step_bound (length (fsi fi)).
Proof. unfold fuel, step_bound. simpl. lia. Qed.

Lemma fuel_step l s s' :
  Inv s → step fi l s = Some s' →
  if is_env l then fuel fi s' = fuel fi s else fuel fi s' < fuel fi s.
Proof.
  intros HI Hs. pose proof (Inv_step fi _ _ _ HI Hs) as HI'.
  apply inv_panic in HI'.
  pose proof (inv_feeder _ HI) as Hfe. pose proof (inv_tracker _ HI) as Htr.
  destruct l; inv_step Hs; norm; try done; unfold fuel; simpl in *;
    push_eqs; simpl;
    rewrite ?sum_list_with_app; simpl; try fuel_upd; try lia.
  all: destruct (feeder s); destruct (tracker s); simpl in *;
    unfold width in *; try lia; intuition (congruence || lia).
Qed.

Lemma fuel_run t s s' :
  Inv s → run fi t s = Some s' → fuel fi s' + own_steps t ≤ fuel fi s.
Proof.
  revert s. induction t as [|l t IH]; intros s HI Hr; simpl in Hr.
  - simplify_eq. unfold own_steps. simpl. lia.
  - destruct (step fi l s) as [s1|] eqn:Hs; [|done].
    pose proof (fuel_step _ _ _ HI Hs) as Hf.
    specialize (IH _ (Inv_step fi _ _ _ HI Hs) Hr).
    unfold own_steps in *. rewrite filter_cons.
    destruct (is_env l) eqn:He; case_decide; simpl; try done; lia.
Qed.

Lemma count_done_Forall ws :
  Forall (λ w, w = WDone) ws → count_done ws = length ws.
Proof.
  induction 1 as [|w ws -> _ IH]; simpl; [done|].
  unfold count_done in *. lia.
Qed.

Lemma workers_cases (ws : list worker_pc) :
  (∃ i w, ws !! i = Some w ∧ is_done w = false)
  ∨ Forall (λ w, w = WDone) ws.
Proof.
  induction ws as [|a ws [(i & w & Hi & Hw)|IH]].
  - right. constructor.
  - left. by exists (S i), w.
  - destruct (is_done a) eqn:Ha.
    + right. constructor; [by destruct a|done].
    + left. by exists 0, a.
Qed.

(** No deadlock: as long as the feeder is not held at the error report,
    some goroutine can move until the output channel is closed. *)
Lemma progress s :
  Inv s → (∀ rest, feeder s ≠ FReport rest) → c_closed s = false →
  ∃ l s', is_env l = false ∧ step fi l s = Some s'.
Proof.
  intros HI Hfr Hc.
  pose proof (inv_panic _ HI) as Hp.
  destruct (ctrl s) eqn:Hct.
  1-4: exists Spawn; unfold step, spawn_step; rewrite Hp, Hct;
    repeat case_match; eauto.
  destruct (workers_cases (workers s)) as [(i & w & Hi & Hw)|Hall].
  - destruct (Inv_busy _ _ _ HI Hi Hw) as (Hwg & _ & _).
    destruct w; try done.
    + pose proof (inv_paths _ HI) as Hpc.
      pose proof (inv_feeder _ HI) as Hfe.
      destruct (feeder s) as [|[|v rest]|rest|] eqn:Hf; simpl in Hpc.
      * rewrite Hct in Hfe. destruct Hfe as [Hfe _].
        by specialize (Hfe eq_refl).
      * exists FeedClose. unfold step. rewrite Hp, Hf, Hpc. eauto.
      * exists (Offer i). unfold step. rewrite Hp, Hf, Hi, Hpc. eauto.
      * by destruct (Hfr rest).
      * exists (RecvClosed i). unfold step. rewrite Hp, Hi, Hpc. eauto.
    + exists (Transform i). unfold step. rewrite Hp, Hi. eauto.
    + exists (Publish i). unfold step. rewrite Hp, Hi, Hc. eauto.
    + exists (WgDone i). unfold step. rewrite Hp, Hi.
      destruct (Z.ltb_spec (wg s - 1) 0); [lia|eauto].
  - pose proof (inv_wg _ HI) as Hwg. pose proof (inv_len _ HI) as Hl.
    pose proof (inv_c _ HI) as Hcc. pose proof (inv_tracker _ HI) as Ht.
    rewrite Hct in Hwg, Hl, Ht. simpl in *.
    rewrite (count_done_Forall _ Hall), Hl in Hwg.
    destruct (tracker s) eqn:Htr; simpl in Hcc.
    + destruct Ht as [Ht _]. by destruct (Ht eq_refl).
    + exists WaitReturn. unfold step. rewrite Hp, Htr.
      destruct (Z.eqb_spec (wg s) 0); [eauto|lia].
    + exists CloseOut. unfold step. rewrite Hp, Htr, Hc. eauto.
    + congruence.
Qed.

End Liveness.

(** ** Accounting of items when [done] is never closed *)

Lemma no_cancel_cons l t :
  no_cancel (l :: t) = true → l ≠ Cancel ∧ no_cancel t = true.
Proof.
  unfold no_cancel. simpl. intros [Hl Ht]%andb_prop.
  split; [|done]. by intros ->.
Qed.

Lemma rpath_digest_item `{World} p : rpath (digest_item p) = p.
Proof.
  unfold digest_item.
  destruct (os_Open p); [|done].
  destruct (gzip_NewReader a); [|done].
  by destruct (ioutil_ReadAll a0) as [? [?|]].
Qed.

Section Accounting.
Context `{World}.
Variable fi : filesInfo.

Lemma Clean_init : Clean fi init.
Proof. split; simpl; try done. Qed.

Lemma flat_same (ws : list worker_pc) i w w' :
  ws !! i = Some w → in_flight w' = in_flight w →
  concat (map in_flight (<[i:=w']> ws)) = concat (map in_flight ws).
Proof.
  revert i. induction ws as [|a ws IH]; intros [|i] Hi Hw; simplify_eq/=.
  - by rewrite Hw.
  - f_equal. by apply IH.
Qed.

Lemma Clean_step l s s' :
  l ≠ Cancel → Inv s → Clean fi s → step fi l s = Some s' → Clean fi s'.
Proof.
  intros Hl HI [Hd He Hf Hx Ha] Hs.
  pose proof (Inv_step fi _ _ _ HI Hs) as Hp. apply inv_panic in Hp.
  pose proof (inv_feeder _ HI) as Hfe.
  destruct l; inv_step Hs; try done; simpl in *; try congruence.
  all: split; simpl; push_eqs; try done; try congruence.
  all: try (apply Forall_insert; [exact Hx|simpl; discriminate]).
  all: try (apply Forall_app; split; [done|by repeat constructor]).
  all: try (erewrite flat_same by (done || reflexivity); done).
  all: try (apply Forall_forall; done).
  - (* the feeder starts *)
    destruct Hfe as [_ Hfe]. rewrite (Hfe ltac:(done)) in Ha. done.
  - (* a worker starts *)
    rewrite map_app, concat_app. simpl. by rewrite !app_nil_r.
  - (* an item is handed to worker i *)
    match goal with Hi : workers s !! _ = Some WRecv |- _ =>
      pose proof (flat_insert in_flight _ _ _ (WItem (item_path fi f)) Hi)
        as Hfl end.
    simpl in Hfl. rewrite app_nil_r in Hfl. rewrite Hfl, <- Ha.
    apply Permutation_app_head. rewrite <- (assoc app). done.
  - (* a result is received by the reader *)
    match goal with Hi : workers s !! _ = Some (WSend _) |- _ =>
      pose proof (flat_insert in_flight _ _ _ WRecv Hi) as Hfl end.
    simpl in Hfl. rewrite app_nil_r in Hfl. rewrite <- Ha, <- Hfl.
    rewrite <- !(assoc app). apply Permutation_app_head.
    rewrite !(assoc app). apply Permutation_app_tail.
    apply Permutation_app_comm.
  - (* wg.Done() *)
    apply Forall_insert; [done|]. intros _.
    rewrite Forall_lookup in Hx.
    match goal with Hi : workers s !! _ = Some WRet |- _ =>
      apply (Hx _ _ Hi eq_refl) end.
Qed.

Lemma Clean_run t s s' :
  no_cancel t = true → Inv s → Clean fi s → run fi t s = Some s' → Clean fi s'.
Proof.
  revert s. induction t as [|l t IH]; intros s Hn HI HC Hr; simpl in Hr.
  - by simplify_eq.
  - destruct (step fi l s) as [s1|] eqn:Hs; [|done].
    apply no_cancel_cons in Hn as [Hl Hn].
    apply (IH s1); [done|by eapply Inv_step| |done].
    eapply Clean_step; eauto.
Qed.

(** Without cancellation every label of an execution belongs to a
    goroutine of the pipeline. *)
Lemma no_cancel_own t s s' :
  no_cancel t = true → Inv s → Clean fi s → run fi t s = Some s' →
  own_steps t = length t.
Proof.
  revert s. induction t as [|l t IH]; intros s Hn HI HC Hr; simpl in Hr.
  - done.
  - destruct (step fi l s) as [s1|] eqn:Hs; [|done].
    apply no_cancel_cons in Hn as [Hl Hn].
    assert (is_env l = false) as He.
    { destruct l; try done. unfold step in Hs.
      rewrite (inv_panic _ HI), (cl_errc _ _ HC) in Hs. done. }
    unfold own_steps in *. rewrite filter_cons.
    case_decide; [|done]. simpl. f_equal.
    apply (IH s1); [done|by eapply Inv_step| |done].
    eapply Clean_step; eauto.
Qed.

(** When the output channel is closed in a run without cancellation, the
    reader holds one result per entry. *)
Lemma Clean_closed s :
  Inv s → Clean fi s → c_closed s = true →
  out s ≡ₚ expected fi (fsi fi).
Proof.
  intros HI HC Hc.
  assert (tracker s = TEnd) as Ht.
  { pose proof (inv_c _ HI) as Hcc. rewrite Hc in Hcc.
    by destruct (tracker s). }
  destruct (Inv_all_done s HI) as [Hlen Hall]; [auto|].
  assert (paths_closed s = true) as Hpc.
  { pose proof (cl_exit _ _ HC) as Hx.
    destruct (workers s) as [|w ws]; [by unfold width in Hlen|].
    inversion Hx; inversion Hall; simplify_eq. auto. }
  assert (feeder s = FEnd) as Hf.
  { pose proof (inv_paths _ HI) as Hp. rewrite Hpc in Hp.
    by destruct (feeder s). }
  pose proof (cl_acct _ _ HC) as Ha. rewrite Hf in Ha. simpl in Ha.
  assert (concat (map in_flight (workers s)) = []) as Hfl.
  { clear -Hall. induction Hall as [|w ws -> _ IH]; [done|]. simpl. done. }
  rewrite Hfl in Ha. simpl in Ha. by rewrite app_nil_r in Ha.
Qed.

End Accounting.

(** ** Completeness (no cancellation) *)

(** C1. For every finite enumeration, in every execution in which [done] is
    never closed: the execution is bounded (at most [step_bound N] steps);
    as long as the output channel is open some goroutine can move, so a
    reader that keeps receiving reaches the end of the stream; and once the
    output channel is closed the reader has received exactly N results, one
    per enumerated entry: the results are a permutation of the per-entry
    results, and their path fields a permutation of the offered paths. *)
Theorem completeness `{World} (fi : filesInfo) (t : list label) (s : state) :
  run fi t init = Some s → no_cancel t = true →
  length t ≤ step_bound (length (fsi fi)) ∧
  (c_closed s = false →
     ∃ l s', is_env l = false ∧ step fi l s = Some s') ∧
  (c_closed s = true →
     length (out s) = length (fsi fi) ∧
     map rpath (out s) ≡ₚ map (item_path fi) (fsi fi) ∧
     out s ≡ₚ expected fi (fsi fi)).
Proof.
  intros Hr Hn.
  pose proof (Inv_reachable fi _ _ Hr) as HI.
  pose proof (Clean_run fi _ _ _ Hn Inv_init (Clean_init fi) Hr) as HC.
  split; [|split].
  - pose proof (fuel_run fi _ _ _ Inv_init Hr) as Hf.
    rewrite (no_cancel_own fi _ _ _ Hn Inv_init (Clean_init fi) Hr) in Hf.
    rewrite fuel_init in Hf. lia.
  - intros Hc. apply progress; [done| |done]. apply (cl_feeder _ _ HC).
  - intros Hc. pose proof (Clean_closed fi _ HI HC Hc) as Hp.
    split; [|split; [|done]].
    + rewrite Hp. unfold expected. by rewrite length_map.
    + rewrite Hp. unfold expected. rewrite <- list_fmap_compose.
      erewrite list_fmap_ext; [done|].
      intros i x _. simpl. apply rpath_digest_item.
Qed.

Lemma completeness_witness :
  let s := default init (run Demo.two (Demo.calm Demo.two) init) in
  run Demo.two (Demo.calm Demo.two) init = Some s ∧
  c_closed s = true ∧
  length (out s) = 2 ∧
  map rpath (out s) ≡ₚ ["testdata/a.gz"; "testdata/b.gz"]%string.
Proof.
  intros s.
  assert (run Demo.two (Demo.calm Demo.two) init = Some s) as Hr
    by (vm_compute; reflexivity).
  assert (c_closed s = true) as Hc by (vm_compute; reflexivity).
  destruct (completeness Demo.two (Demo.calm Demo.two) s Hr
              ltac:(vm_compute; reflexivity)) as (_ & _ & Hd).
  destruct (Hd Hc) as (Hlen & Hpaths & _).
  split; [exact Hr|split; [exact Hc|split; [exact Hlen|exact Hpaths]]].
Defined.

(** ** Closing the output channel *)

Section Closure.
Context `{World}.
Variable fi : filesInfo.



(** A worker that has called [wg.Done()] takes no step. *)
Lemma done_worker_stuck s i l :
  workers s !! i = Some WDone → l ∈ worker_labels i → step fi l s = None.
Proof.
  intros Hi Hl. unfold worker_labels in Hl.
  repeat (apply elem_of_cons in Hl as [->|Hl]);
    try (apply elem_of_nil in Hl; done);
    unfold step; rewrite ?Hi; repeat case_match; done.
Qed.

Lemma all_done_quiet s i l :
  all_done s → l ∈ worker_labels i → step fi l s = None.
Proof.
  intros [_ Hall] Hl.
  destruct (workers s !! i) as [w|] eqn:Hi.
  - rewrite Forall_lookup in Hall. rewrite (Hall _ _ Hi) in Hi.
    by eapply done_worker_stuck.
  - unfold worker_labels in Hl.
    repeat (apply elem_of_cons in Hl as [->|Hl]);
      try (apply elem_of_nil in Hl; done);
      unfold step; rewrite ?Hi; repeat case_match; done.
Qed.

End Closure.



(** ** A worker that has left digest *)

Section Exit.
Context `{World}.
Variable fi : filesInfo.



End Exit.



(** ** Every Result belongs to one enumerated entry *)

Section Isolation.
Context `{World}.
Variable fi : filesInfo.





End Isolation.



(** ** The empty enumeration *)

Section Empty.
Context `{World}.
Variable fi : filesInfo.
Hypothesis no_items : fsi fi = [].

Lemma Idle_init : Idle init.
Proof. split; simpl; try done. by left. Qed.

Lemma Idle_step l s s' :
  Idle s → step fi l s = Some s' → Idle s' ∧ is_item_label l = false.
Proof.
  intros [Ho He Hf Hw Hx] Hs.
  assert (∀ i w, workers s !! i = Some w → idle_worker w) as Hwi.
  { intros i w Hi. rewrite Forall_lookup in Hw. by eapply Hw. }
  destruct l; inv_step Hs;
    try match goal with
    | Hi : workers s !! _ = Some _ |- _ =>
        destruct (Hwi _ _ Hi) as [?|[?|?]]; simplify_eq
    end;
    try (destruct Hf as [?|[?|?]]; congruence);
    try congruence.
  all: split; [|done]; split; simpl in *; push_eqs; simpl in *; try done.
  all: try (by right; left).
  all: try (by right; right).
  all: try (apply Forall_app; split; [done|by repeat constructor; left]).
  all: try (apply Forall_app; split; [done|by repeat constructor]).
  all: try (apply Forall_insert; [done|]; try done).
  all: try (apply Forall_forall; done).
  all: try (by right; left).
  all: try (by right; right).
  - rewrite no_items. right. by left.
  - intros _. rewrite Forall_lookup in Hx.
    match goal with Hi : workers s !! _ = Some WRet |- _ =>
      apply (Hx _ _ Hi eq_refl) end.
Qed.

Lemma Idle_run t s s' :
  Idle s → run fi t s = Some s' →
  Idle s' ∧ Forall (λ l, is_item_label l = false) t.
Proof.
  revert s. induction t as [|l t IH]; intros s HS Hr; simpl in Hr.
  - by simplify_eq.
  - destruct (step fi l s) as [s1|] eqn:Hs; [|done].
    destruct (Idle_step _ _ _ HS Hs) as [HS1 Hl].
    destruct (IH _ HS1 Hr) as [HS' Ht]. split; [done|]. by constructor.
Qed.

End Empty.

(** C9. With an empty enumeration, in every execution (cancelled or not):
    the reader receives no Result and the error channel stays empty; no
    item is ever offered, transformed, published or dropped, and the feeder
    never reports; the feeder's first and only step is [close(paths)];
    workers leave [digest] only through the closed intake; the execution
    is bounded, cannot get stuck before the output channel is closed, and
    when it is closed all [width] workers have exited and the intake is
    closed. *)
Theorem empty_enumeration `{World} (d : string) (t : list label) (s : state) :
  let fi := {| dir := d; fsi := [] |} in
  run fi t init = Some s →
  out s = [] ∧ errc s = [] ∧
  Forall (λ l, is_item_label l = false) t ∧
  idle_feeder (feeder s) ∧
  (feeder s = FLoop [] →
     ∃ s', step fi FeedClose s = Some s' ∧ paths_closed s' = true) ∧
  Forall (λ w, idle_worker w ∧ (exited w = true → paths_closed s = true))
         (workers s) ∧
  own_steps t ≤ step_bound 0 ∧
  (c_closed s = false →
     ∃ l s', is_env l = false ∧ step fi l s = Some s') ∧
  (c_closed s = true → all_done s ∧ paths_closed s = true).
Proof.
  intros fi Hr. pose proof (Inv_reachable fi _ _ Hr) as HI.
  destruct (Idle_run fi eq_refl _ _ _ (Idle_init) Hr)
    as [[Ho He Hf Hw Hx] Ht].
  assert (∀ rest, feeder s ≠ FReport rest) as Hnr.
  { intros rest Hq. destruct Hf as [?|[?|?]]; congruence. }
  repeat match goal with |- _ ∧ _ => split end; try done.
  - intros Hq. unfold step. rewrite (inv_panic _ HI), Hq.
    pose proof (inv_paths _ HI) as Hp. rewrite Hq in Hp. simpl in Hp.
    rewrite Hp. eauto.
  - apply Forall_and. done.
  - pose proof (fuel_run fi _ _ _ Inv_init Hr) as Hfu.
    rewrite fuel_init in Hfu. simpl in Hfu. lia.
  - intros Hc. by apply progress.
  - intros Hc.
    assert (all_done s) as Ha.
    { apply Inv_all_done; [done|]. pose proof (inv_c _ HI) as Hcc.
      destruct (tracker s); simpl in Hcc; try congruence; auto. }
    split; [done|]. destruct Ha as [Hlen Hall].
    destruct (workers s) as [|w ws]; [by unfold width in Hlen|].
    inversion Hx; inversion Hall; simplify_eq. auto.
Qed.

Lemma empty_enumeration_witness :
  let t := Demo.calm Demo.none in
  let s := default init (run Demo.none t init) in
  run Demo.none t init = Some s ∧ c_closed s = true ∧
  out s = [] ∧ errc s = [] ∧ paths_closed s = true.
Proof.
  intros t s.
  assert (run Demo.none t init = Some s) as Hr by (vm_compute; reflexivity).
  assert (c_closed s = true) as Hc by (vm_compute; reflexivity).
  destruct (empty_enumeration "testdata" t s Hr)
    as (Ho & He & _ & _ & _ & _ & _ & _ & Hcl).
  split; [exact Hr|split; [exact Hc|split; [exact Ho|split; [exact He|]]]].
  exact (proj2 (Hcl Hc)).
Defined.

(** ** The per-item transformation *)

(** C8. The transformation is a total function of the path: it returns a
    Result for every path, whose path field is the input path.  An open
    failure, a gzip header failure and a read failure each end up in the
    error field of that Result with an empty data field, so whenever the
    error field is set the data is empty.  The worker's transformation
    step never panics and leaves the worker at the publishing select with
    that Result. *)
Theorem digest_item_total `{World} (fi : filesInfo) (p : string) :
  rpath (digest_item p) = p ∧
  (∀ e, os_Open p = Fail e → digest_item p = failed p e) ∧
  (∀ f e, os_Open p = Val f → gzip_NewReader f = Fail e →
     digest_item p = failed p e) ∧
  (∀ f g d e, os_Open p = Val f → gzip_NewReader f = Val g →
     ioutil_ReadAll g = (d, Some e) → digest_item p = failed p e) ∧
  (∀ f g d, os_Open p = Val f → gzip_NewReader f = Val g →
     ioutil_ReadAll g = (d, None) →
     digest_item p = {| rpath := p; rdata := d; rerr := None |}) ∧
  (rerr (digest_item p) ≠ None → rdata (digest_item p) = ""%string) ∧
  (∀ s i, panicked s = false → workers s !! i = Some (WItem p) →
     ∃ s', step fi (Transform i) s = Some s' ∧ panicked s' = false ∧
           workers s' !! i = Some (WSend (digest_item p)) ∧
           errc s' = errc s ∧ out s' = out s).
Proof.
  split; [apply rpath_digest_item|].
  unfold digest_item, failed, set_err, set_data. simpl.
  split; [|split; [|split; [|split; [|split]]]].
  - by intros e ->.
  - by intros f e -> ->.
  - by intros f g d e -> -> ->.
  - by intros f g d -> -> ->.
  - destruct (os_Open p) as [f|e]; [|done].
    destruct (gzip_NewReader f) as [g|e]; [|done].
    by destruct (ioutil_ReadAll g) as [d [e|]].
  - intros s i Hp Hi.
    assert (i < length (workers s)) as Hlt by (by eapply lookup_lt_Some).
    eexists. unfold step. rewrite Hp, Hi. split; [done|]. simpl.
    rewrite list_lookup_insert_eq by done. done.
Qed.

Lemma digest_item_total_witness :
  digest_item "testdata/missing.gz"
  = failed "testdata/missing.gz"
      (errors_New "open: no such file or directory") ∧
  digest_item "testdata/b.gz"
  = failed "testdata/b.gz" (errors_New "gzip: invalid header") ∧
  digest_item "testdata/c.gz"
  = failed "testdata/c.gz" (errors_New "unexpected EOF") ∧
  digest_item "testdata/a.gz"
  = {| rpath := "testdata/a.gz"; rdata := "hello"; rerr := None |}.
Proof.
  split; [|split; [|split]].
  - apply (digest_item_total Demo.two "testdata/missing.gz"). reflexivity.
  - eapply (proj1 (proj2 (proj2
              (digest_item_total Demo.two "testdata/b.gz"))));
      reflexivity.
  - eapply (proj1 (proj2 (proj2 (proj2
              (digest_item_total Demo.two "testdata/c.gz")))));
      reflexivity.
  - eapply (proj1 (proj2 (proj2 (proj2 (proj2
              (digest_item_total Demo.two "testdata/a.gz"))))));
      reflexivity.
Defined.

(** ** gzFilesInfoIn keeps the gzipped files *)

Lemma append_cons (c : Ascii.ascii) (a b : string) :
  (String c a +:+ b)%string = String c (a +:+ b)%string.
Proof. reflexivity. Qed.

Lemma substring_all (s : string) : String.substring 0 (String.length s) s = s.
Proof. induction s as [|c s IH]; simpl; [done|]. by rewrite IH. Qed.

Lemma substring_skip (pre suf : string) :
  String.substring (String.length pre) (String.length suf) (pre +:+ suf)
  = suf.
Proof.
  induction pre as [|c pre IH]; [apply substring_all|].
  rewrite append_cons. simpl. done.
Qed.

Lemma string_length_app (a b : string) :
  String.length (a +:+ b) = String.length a + String.length b.
Proof.
  induction a as [|c a IH]; [done|].
  rewrite append_cons. simpl. by rewrite IH.
Qed.

Lemma string_split (n : nat) (s : string) :
  n ≤ String.length s →
  s = (String.substring 0 n s
       +:+ String.substring n (String.length s - n) s)%string.
Proof.
  revert s. induction n as [|n IH]; intros s Hn.
  - simpl. rewrite Nat.sub_0_r, substring_all. by destruct s.
  - destruct s as [|c s]; simpl in *; [lia|].
    rewrite append_cons. f_equal. apply IH. lia.
Qed.

(** [strings.HasSuffix] holds exactly of the strings that end with the
    suffix. *)
Lemma HasSuffix_spec (s suf : string) :
  HasSuffix s suf = true ↔ ∃ stem, s = (stem +:+ suf)%string.
Proof.
  unfold HasSuffix. rewrite andb_true_iff, Nat.leb_le, String.eqb_eq.
  split.
  - intros [Hle Hsub].
    exists (String.substring 0 (String.length s - String.length suf) s).
    pose proof (string_split (String.length s - String.length suf) s
                  ltac:(lia)) as Hsp.
    replace (String.length s - (String.length s - String.length suf))
      with (String.length suf) in Hsp by lia.
    by rewrite Hsub in Hsp.
  - intros [stem ->]. rewrite string_length_app. split; [lia|].
    replace (String.length stem + String.length suf - String.length suf)
      with (String.length stem) by lia.
    apply substring_skip.
Qed.

Lemma keep_spec (v : FileInfo) : keep v = true ↔ gz_file v.
Proof.
  unfold keep, unwanted, gz_file. rewrite <- HasSuffix_spec.
  destruct (IsDir v), (HasSuffix (Name v) ".gz"); simpl;
    intuition congruence.
Qed.

Lemma remove_at_middle (pre post : list FileInfo) (v : FileInfo) :
  remove_at (length pre) (pre ++ v :: post) = pre ++ post.
Proof.
  unfold remove_at. rewrite take_app_length. f_equal.
  change (v :: post) with ([v] ++ post). rewrite (assoc app).
  rewrite drop_app_length'; [done|]. rewrite length_app. simpl. lia.
Qed.

(** The loop, run over the first [n] entries of [pre ++ post]. *)
Lemma prune_spec (pre post : list FileInfo) :
  prune (length pre) (pre ++ post) = Some (List.filter keep pre ++ post).
Proof.
  revert post. induction pre as [|v pre IH] using rev_ind; intros post.
  - done.
  - rewrite length_app, Nat.add_1_r, <- (assoc app).
    change ([v] ++ post) with (v :: post).
    change (prune (S (length pre)) (pre ++ v :: post))
      with (match (pre ++ v :: post) !! length pre with
            | None => None
            | Some x =>
                prune (length pre)
                  (if unwanted x
                   then remove_at (length pre) (pre ++ v :: post)
                   else pre ++ v :: post)
            end).
    rewrite (list_lookup_middle pre post v (length pre) eq_refl).
    rewrite List.filter_app. simpl. unfold keep at 2.
    destruct (unwanted v); simpl.
    + rewrite remove_at_middle, app_nil_r. apply IH.
    + rewrite IH. by rewrite <- (assoc app).
Qed.

(** C10. When the directory is read successfully, [gzFilesInfoIn] returns
    (without panicking) a filesInfo whose [dir] is the argument and whose
    entries are exactly the entries of the listing that are not directories
    and whose names end with ".gz", in the order of the listing, and a nil
    error; when reading the directory fails it returns a nil filesInfo and
    that error. *)
Theorem gzFilesInfoIn_spec `{World} (d : string) :
  (∀ l, ioutil_ReadDir d = Val l →
     gzFilesInfoIn d
     = Some (Some {| dir := d; fsi := List.filter keep l |}, None) ∧
     ∀ v, v ∈ List.filter keep l ↔ v ∈ l ∧ gz_file v) ∧
  (∀ e, ioutil_ReadDir d = Fail e → gzFilesInfoIn d = Some (None, Some e)).
Proof.
  unfold gzFilesInfoIn. split.
  - intros l ->. split.
    + pose proof (prune_spec l []) as Hp. rewrite !app_nil_r in Hp.
      by rewrite Hp.
    + intros v. rewrite !list_elem_of_In, List.filter_In, keep_spec. done.
  - by intros e ->.
Qed.

Lemma gzFilesInfoIn_spec_witness :
  gzFilesInfoIn "testdata"
  = Some (Some {| dir := "testdata";
                  fsi := [Demo.gz "a.gz"; Demo.gz "b.gz"; Demo.gz "c.gz"] |},
          None) ∧
  gzFilesInfoIn "nowhere"
  = Some (None, Some (errors_New "open: no such file or directory")).
Proof.
  split.
  - apply (proj1 (gzFilesInfoIn_spec "testdata") Demo.listing). reflexivity.
  - apply (proj2 (gzFilesInfoIn_spec "nowhere")). reflexivity.
Defined.

(** ** Cancellation seen by the feeder *)

Lemma worker_labels_own i l :
  i < width → l ∈ worker_labels i → l ∈ own_labels.
Proof.
  intros Hi Hl. unfold own_labels. apply list_elem_of_In.
  apply in_or_app. right. apply in_concat.
  exists (worker_labels i). split; [|by apply list_elem_of_In].
  apply in_map, in_seq. lia.
Qed.

(** [stuck] decides that no goroutine of the pipeline has a step. *)
Lemma stuck_sound `{World} (fi : filesInfo) (s : state) :
  stuck fi s = true → length (workers s) ≤ width →
  ∀ l, is_env l = false → step fi l s = None.
Proof.
  intros Hst Hlen l Hl. unfold stuck in Hst.
  rewrite forallb_forall in Hst.
  assert (l ∈ own_labels → step fi l s = None) as Hown.
  { intros Hin. apply list_elem_of_In in Hin. specialize (Hst _ Hin).
    by destruct (step fi l s). }
  assert (∀ i, l ∈ worker_labels i → step fi l s = None) as Hwk.
  { intros i Hin. destruct (decide (i < width)) as [Hi|Hi].
    - apply Hown. by eapply worker_labels_own.
    - assert (workers s !! i = None) as Hnone
        by (apply lookup_ge_None; lia).
      unfold worker_labels in Hin.
      repeat (apply elem_of_cons in Hin as [->|Hin]);
        try (apply elem_of_nil in Hin; done);
        unfold step; rewrite ?Hnone; repeat case_match; done. }
  destruct l; try done;
    try (apply Hown, elem_of_app; left; apply list_elem_of_In;
         simpl; tauto);
    match goal with |- step _ (_ ?i) _ = _ =>
      apply (Hwk i), list_elem_of_In; simpl; tauto end.
Qed.

(** C3 (the code departs from it).  Three entries; [done] is closed while
    the feeder offers the first one.  The feeder takes the [<-done] case
    and writes "canceled", but then it is back at the head of its loop with
    the other entries still to offer: it has not terminated and the intake
    is not closed.  From there it can hand the second entry to a worker,
    or take the [<-done] case again and come to a second
    [errc <- errors.New("canceled")], where it waits while the slot is
    full; once the caller has emptied the slot the second "canceled" is
    written. *)
Theorem feeder_continues_after_cancel :
  let s1 := default init (run Demo.three Demo.early_cancel init) in
  let s2 := default init (run Demo.three Demo.keeps_offering init) in
  let s3 := default init (run Demo.three Demo.second_report init) in
  let s4 := default init (run Demo.three Demo.double_report init) in
  (run Demo.three Demo.early_cancel init = Some s1 ∧
   done s1 = true ∧ errc s1 = [canceled] ∧ paths_closed s1 = false ∧
   feeder s1 = FLoop [Demo.gz "b.gz"; Demo.gz "c.gz"]) ∧
  (run Demo.three Demo.keeps_offering init = Some s2 ∧
   workers s2 !! 0 = Some (WItem "testdata/b.gz") ∧
   feeder s2 = FLoop [Demo.gz "c.gz"]) ∧
  (run Demo.three Demo.second_report init = Some s3 ∧
   feeder s3 = FReport [Demo.gz "c.gz"] ∧ errc s3 = [canceled] ∧
   step Demo.three FeedReport s3 = None) ∧
  (run Demo.three Demo.double_report init = Some s4 ∧
   errc s4 = [canceled] ∧ feeder s4 = FLoop [Demo.gz "c.gz"]).
Proof. vm_compute. repeat split. Qed.

(** C5 (the code departs from it).  Same start; after the feeder has
    come to its second report all goroutines of [funnel] are started.  The
    feeder waits at the full error slot, the intake is open and empty, the
    sixteen workers wait at [range paths], the tracker waits in
    [wg.Wait()]: [done] is closed, the output channel is open, and no
    goroutine of the pipeline has a step. *)
Theorem cancel_deadlock :
  let s := default init (run Demo.three Demo.deadlock init) in
  run Demo.three Demo.deadlock init = Some s ∧
  done s = true ∧ c_closed s = false ∧ paths_closed s = false ∧
  feeder s = FReport [Demo.gz "c.gz"] ∧ errc s = [canceled] ∧
  workers s = replicate width WRecv ∧ tracker s = TWait ∧
  out s = [] ∧
  ∀ l, is_env l = false → step Demo.three l s = None.
Proof.
  intros s.
  assert (run Demo.three Demo.deadlock init = Some s) as Hr
    by (vm_compute; reflexivity).
  assert (workers s = replicate width WRecv) as Hw
    by (vm_compute; reflexivity).
  split; [exact Hr|].
  split; [vm_compute; reflexivity|]. split; [vm_compute; reflexivity|].
  split; [vm_compute; reflexivity|]. split; [vm_compute; reflexivity|].
  split; [vm_compute; reflexivity|]. split; [exact Hw|].
  split; [vm_compute; reflexivity|]. split; [vm_compute; reflexivity|].
  apply stuck_sound; [vm_compute; reflexivity|].
  rewrite Hw, length_replicate. done.
Qed.

(** ** The error slot *)




(** * Further properties of the pipeline *)

(** ** Width bounds the work in progress *)

(** X1. Whatever the number of entries and whatever the schedule, at no
    point of an execution are there more than [width] worker goroutines,
    and so never more than [width] items opened or decoded at once; the
    WaitGroup counter stays between 0 and [width]. *)
Theorem bounded_concurrency `{World} (fi : filesInfo) (t : list label)
    (s : state) :
  run fi t init = Some s →
  length (workers s) ≤ width ∧ in_progress s ≤ width ∧
  (0 ≤ wg s ≤ Z.of_nat width)%Z.
Proof.
  intros Hr. pose proof (Inv_reachable fi _ _ Hr) as HI.
  pose proof (inv_len _ HI) as Hl. pose proof (inv_spawned _ HI) as Hs.
  pose proof (inv_wg _ HI) as Hw.
  pose proof (count_done_le (workers s)) as Hc.
  assert (in_progress s ≤ length (workers s)) as Hp.
  { unfold in_progress. generalize (workers s). intros l.
    induction l as [|w l IH]; simpl; [done|].
    destruct (busy w); simpl; lia. }
  split; [lia|split; [lia|]].
  destruct (added (ctrl s)); lia.
Qed.

Lemma bounded_concurrency_witness :
  let t := Demo.setup ++ [Offer 0; Offer 1; Transform 0] in
  let s := default init (run Demo.three t init) in
  run Demo.three t init = Some s ∧ in_progress s = 2 ∧
  length (workers s) ≤ width.
Proof.
  intros t s.
  assert (run Demo.three t init = Some s) as Hr by (vm_compute; reflexivity).
  split; [exact Hr|split; [vm_compute; reflexivity|]].
  exact (proj1 (bounded_concurrency Demo.three t s Hr)).
Defined.

(** ** Every execution is finite *)

Lemma cancel_run `{World} (fi : filesInfo) t s s' :
  run fi t s = Some s' →
  (if done s then 1 else 0) + cancels t = (if done s' then 1 else 0).
Proof.
  revert s. induction t as [|l t IH]; intros s Hr; simpl in Hr.
  - simplify_eq. unfold cancels. simpl. lia.
  - destruct (step fi l s) as [s1|] eqn:Hs; [|done].
    specialize (IH _ Hr). unfold cancels in *. simpl.
    assert ((if done s then 1 else 0) + (if is_cancel l then 1 else 0)
            = (if done s1 then 1 else 0)) as Hd.
    { destruct l; inv_step Hs; simpl; try done;
        repeat case_match; simpl in *; try done; try congruence. }
    destruct (is_cancel l); simpl; lia.
Qed.



(** ** No entry is processed twice *)

Section AtMostOnce.
Context `{World}.
Variable fi : filesInfo.

Lemma owed_step l s s' :
  Inv s → step fi l s = Some s' → owed fi s' ⊆+ owed fi s.
Proof.
  intros HI Hs. unfold owed.
  pose proof (inv_feeder _ HI) as Hfe.
  destruct l; inv_step Hs; simpl in *; push_eqs; simpl; try reflexivity.
  - destruct Hfe as [_ Hfe]. rewrite (Hfe ltac:(done)). reflexivity.
  - rewrite map_app, concat_app. simpl. rewrite !app_nil_r. reflexivity.
  - match goal with Hi : workers s !! _ = Some WRecv |- _ =>
      pose proof (flat_insert in_flight _ _ _ (WItem (item_path fi f)) Hi)
        as Hfl end.
    simpl in Hfl. rewrite app_nil_r in Hfl. rewrite Hfl.
    apply Permutation_submseteq. apply Permutation_app_head.
    rewrite <- (assoc app). reflexivity.
  - apply submseteq_app; [reflexivity|].
    apply submseteq_app; [reflexivity|].
    apply submseteq_cons. reflexivity.
  - erewrite flat_same by (done || reflexivity). reflexivity.
  - erewrite flat_same by (done || reflexivity). reflexivity.
  - match goal with Hi : workers s !! _ = Some (WSend _) |- _ =>
      pose proof (flat_insert in_flight _ _ _ WRecv Hi) as Hfl end.
    simpl in Hfl. rewrite app_nil_r in Hfl. rewrite <- Hfl.
    apply Permutation_submseteq.
    rewrite <- !(assoc app). apply Permutation_app_head.
    rewrite !(assoc app). apply Permutation_app_tail.
    apply Permutation_app_comm.
  - match goal with Hi : workers s !! _ = Some (WSend _) |- _ =>
      pose proof (flat_insert in_flight _ _ _ WRet Hi) as Hfl end.
    simpl in Hfl. rewrite app_nil_r in Hfl. rewrite <- Hfl.
    apply submseteq_app; [reflexivity|].
    apply submseteq_app; [|reflexivity].
    apply submseteq_inserts_r. reflexivity.
  - erewrite flat_same by (done || reflexivity). reflexivity.
Qed.

Lemma owed_run t s s' :
  Inv s → run fi t s = Some s' → owed fi s' ⊆+ owed fi s.
Proof.
  revert s. induction t as [|l t IH]; intros s HI Hr; simpl in Hr.
  - by simplify_eq.
  - destruct (step fi l s) as [s1|] eqn:Hs; [|done].
    trans (owed fi s1); [|by apply (owed_step l)].
    apply IH; [|done]. by eapply Inv_step.
Qed.

End AtMostOnce.

Lemma rpath_expected `{World} (fi : filesInfo) (l : list FileInfo) :
  rpath <$> expected fi l = map (item_path fi) l.
Proof.
  induction l as [|v l IH]; [done|].
  unfold expected in *. simpl. rewrite rpath_digest_item.
  f_equal. apply IH.
Qed.

(** X3. Cancelled or not, the Results received so far come from distinct
    entries of the enumeration: as a multiset they are contained in the
    per-entry results.  So there are never more Results than entries, no
    entry is delivered to two workers or published twice, and when the
    enumerated paths are pairwise different so are the paths of the
    Results. *)
Theorem at_most_once `{World} (fi : filesInfo) (t : list label) (s : state) :
  run fi t init = Some s →
  out s ⊆+ expected fi (fsi fi) ∧
  length (out s) ≤ length (fsi fi) ∧
  (NoDup (map (item_path fi) (fsi fi)) → NoDup (map rpath (out s))).
Proof.
  intros Hr.
  pose proof (owed_run fi _ _ _ Inv_init Hr) as Ho.
  unfold owed in Ho. simpl in Ho.
  assert (out s ⊆+ expected fi (fsi fi)) as Hsub.
  { etrans; [|exact Ho]. apply submseteq_inserts_r. reflexivity. }
  split; [done|split].
  - apply submseteq_length in Hsub. unfold expected in Hsub.
    by rewrite length_map in Hsub.
  - intros Hnd.
    assert (map rpath (out s) ⊆+ map (item_path fi) (fsi fi)) as Hp.
    { pose proof (fmap_submseteq rpath _ _ Hsub) as Hm.
      by rewrite rpath_expected in Hm. }
    apply submseteq_sublist_l in Hp as (k & Hk & Hperm).
    apply (sublist_NoDup _ k); [by rewrite Hperm|done].
Qed.

Lemma at_most_once_witness :
  let t := Demo.at_select ++ [Abandon 0; Offer 1; Transform 1; Publish 1] in
  let s := default init (run Demo.two t init) in
  run Demo.two t init = Some s ∧
  out s = [digest_item "testdata/b.gz"] ∧ length (out s) ≤ 2.
Proof.
  intros t s.
  assert (run Demo.two t init = Some s) as Hr by (vm_compute; reflexivity).
  split; [exact Hr|split; [vm_compute; reflexivity|]].
  exact (proj1 (proj2 (at_most_once Demo.two t s Hr))).
Defined.

(** ** Entries reach the workers in enumeration order *)

Section Order.
Context `{World}.
Variable fi : filesInfo.

Lemma offered_step l s s' :
  Inv s → step fi l s = Some s' →
  match l with
  | Offer i =>
      ∃ v, pending fi (feeder s) = v :: pending fi (feeder s') ∧
           workers s' !! i = Some (WItem (item_path fi v))
  | FeedDone => ∃ v, pending fi (feeder s) = v :: pending fi (feeder s')
  | _ => pending fi (feeder s') = pending fi (feeder s)
  end.
Proof.
  intros HI Hs. pose proof (inv_feeder _ HI) as Hfe.
  pose proof (inv_panic _ (Inv_step fi _ _ _ HI Hs)) as Hp.
  destruct l; inv_step Hs; simpl in *; push_eqs; simpl; try done;
    try (by eexists).
  - destruct Hfe as [_ Hfe]. by rewrite (Hfe ltac:(done)).
  - eexists. split; [done|].
    apply list_lookup_insert_eq. by eapply lookup_lt_Some.
Qed.

Lemma offered_sublist t s s' :
  Inv s → run fi t s = Some s' →
  offered fi t s `sublist_of` map (item_path fi) (pending fi (feeder s)).
Proof.
  revert s. induction t as [|l t IH]; intros s HI Hr; simpl in *.
  - apply sublist_nil_l.
  - destruct (step fi l s) as [s1|] eqn:Hs; [|done].
    pose proof (offered_step _ _ _ HI Hs) as Hst.
    specialize (IH _ (Inv_step fi _ _ _ HI Hs) Hr).
    destruct l; try (by rewrite <- Hst).
    + destruct Hst as (v & -> & ->). simpl. by apply sublist_skip.
    + destruct Hst as (v & ->). simpl. by apply sublist_cons.
Qed.

Lemma offered_exact t s s' :
  no_cancel t = true → Inv s → Clean fi s → run fi t s = Some s' →
  offered fi t s ++ map (item_path fi) (pending fi (feeder s'))
  = map (item_path fi) (pending fi (feeder s)).
Proof.
  revert s. induction t as [|l t IH]; intros s Hn HI HC Hr; simpl in *.
  - by simplify_eq.
  - destruct (step fi l s) as [s1|] eqn:Hs; [|done].
    apply no_cancel_cons in Hn as [Hl Hn].
    pose proof (offered_step _ _ _ HI Hs) as Hst.
    specialize (IH _ Hn (Inv_step fi _ _ _ HI Hs)
                  (Clean_step fi _ _ _ Hl HI HC Hs) Hr).
    destruct l; try (by rewrite <- Hst).
    + destruct Hst as (v & -> & ->). simpl. by rewrite IH.
    + unfold step in Hs.
      rewrite (inv_panic _ HI), (cl_done _ _ HC) in Hs.
      by repeat case_match.
Qed.

Lemma closed_feeder_ended s :
  Inv s → Clean fi s → c_closed s = true → feeder s = FEnd.
Proof.
  intros HI HC Hc.
  assert (tracker s = TEnd) as Ht.
  { pose proof (inv_c _ HI) as Hcc. rewrite Hc in Hcc.
    by destruct (tracker s). }
  destruct (Inv_all_done s HI) as [Hlen Hall]; [auto|].
  assert (paths_closed s = true) as Hpc.
  { pose proof (cl_exit _ _ HC) as Hx.
    destruct (workers s) as [|w ws]; [by unfold width in Hlen|].
    inversion Hx; inversion Hall; simplify_eq. auto. }
  pose proof (inv_paths _ HI) as Hp. rewrite Hpc in Hp.
  by destruct (feeder s).
Qed.

End Order.

(** X4. In every execution the paths that the workers receive from the
    intake, taken in the order of the receptions, form a subsequence of
    the enumerated paths: entries are handed out in enumeration order and
    none is handed out twice.  When nobody cancels and the output channel
    is closed, that sequence is the whole enumeration. *)
Theorem offered_in_order `{World} (fi : filesInfo) (t : list label)
    (s : state) :
  run fi t init = Some s →
  offered fi t init `sublist_of` map (item_path fi) (fsi fi) ∧
  (no_cancel t = true → c_closed s = true →
     offered fi t init = map (item_path fi) (fsi fi)).
Proof.
  intros Hr. split.
  - apply (offered_sublist fi _ _ _ Inv_init Hr).
  - intros Hn Hc.
    pose proof (offered_exact fi _ _ _ Hn Inv_init (Clean_init fi) Hr) as He.
    pose proof (Inv_reachable fi _ _ Hr) as HI.
    pose proof (Clean_run fi _ _ _ Hn Inv_init (Clean_init fi) Hr) as HC.
    rewrite (closed_feeder_ended fi _ HI HC Hc) in He. simpl in He.
    by rewrite app_nil_r in He.
Qed.

Lemma offered_in_order_witness :
  let t := Demo.calm Demo.three in
  let s := default init (run Demo.three t init) in
  run Demo.three t init = Some s ∧
  offered Demo.three t init
  = ["testdata/a.gz"; "testdata/b.gz"; "testdata/c.gz"]%string.
Proof.
  intros t s.
  assert (run Demo.three t init = Some s) as Hr by (vm_compute; reflexivity).
  split; [exact Hr|].
  apply (proj2 (offered_in_order Demo.three t s Hr));
    vm_compute; reflexivity.
Defined.

(** ** The end of the stream is final *)

Section Final.
Context `{World}.
Variable fi : filesInfo.

Lemma closed_step l s s' :
  Inv s → c_closed s = true → step fi l s = Some s' →
  c_closed s' = true ∧ out s' = out s ∧ workers s' = workers s.
Proof.
  intros HI Hc Hs.
  assert (all_done s) as Ha.
  { apply Inv_all_done; [done|]. pose proof (inv_c _ HI) as Hcc.
    rewrite Hc in Hcc. destruct (tracker s); try done; auto. }
  assert (ctrl s = CEnd) as Hct.
  { apply Inv_started; [done|]. pose proof (inv_c _ HI) as Hcc.
    rewrite Hc in Hcc. by destruct (tracker s). }
  assert (∀ i l', l = l' → l' ∈ worker_labels i → False) as Hq.
  { intros i l' -> Hin.
    rewrite (all_done_quiet fi _ _ _ Ha Hin) in Hs. done. }
  destruct l;
    try (exfalso; eapply Hq; [reflexivity|];
         apply list_elem_of_In; simpl; tauto);
    inv_step Hs; simpl in *; try done; try congruence.
Qed.

Lemma closed_run t s s' :
  Inv s → c_closed s = true → run fi t s = Some s' →
  c_closed s' = true ∧ out s' = out s ∧ workers s' = workers s.
Proof.
  revert s. induction t as [|l t IH]; intros s HI Hc Hr; simpl in Hr.
  - by simplify_eq.
  - destruct (step fi l s) as [s1|] eqn:Hs; [|done].
    destruct (closed_step _ _ _ HI Hc Hs) as (Hc1 & Ho1 & Hw1).
    destruct (IH _ (Inv_step fi _ _ _ HI Hs) Hc1 Hr) as (? & ? & ?).
    split; [done|]. split; congruence.
Qed.

End Final.

(** X5. Once the output channel has been closed it stays closed, and
    whatever happens afterwards (cancellation, the caller taking an error)
    no further Result is received and no worker changes state: the end of
    the stream is final. *)
Theorem closed_is_final `{World} (fi : filesInfo) (t t' : list label)
    (s s' : state) :
  run fi t init = Some s → c_closed s = true → run fi t' s = Some s' →
  c_closed s' = true ∧ out s' = out s ∧ workers s' = workers s.
Proof.
  intros Hr Hc Hr'. eapply closed_run; [|done|done].
  by eapply Inv_reachable.
Qed.

Lemma closed_is_final_witness :
  let t := Demo.calm Demo.two in
  let s := default init (run Demo.two t init) in
  let s' := default init (run Demo.two [Cancel] s) in
  run Demo.two t init = Some s ∧ run Demo.two [Cancel] s = Some s' ∧
  out s' = out s.
Proof.
  intros t s s'.
  assert (run Demo.two t init = Some s) as Hr by (vm_compute; reflexivity).
  assert (run Demo.two [Cancel] s = Some s') as Hr'
    by (vm_compute; reflexivity).
  split; [exact Hr|split; [exact Hr'|]].
  exact (proj1 (proj2 (closed_is_final Demo.two t [Cancel] s s' Hr
                         ltac:(vm_compute; reflexivity) Hr'))).
Defined.

(** ** Where an error report and a worker's exit come from *)

Section Provenance.
Context `{World}.
Variable fi : filesInfo.

Lemma Traced_init : Traced init.
Proof. split; simpl; try done. Qed.

Lemma Traced_step l s s' : Traced s → step fi l s = Some s' → Traced s'.
Proof.
  intros [He Hf Hr Hx] Hs.
  assert (∀ i w, workers s !! i = Some w → exited w = true →
            paths_closed s = true ∨ done s = true) as Hxi.
  { intros i w Hi. rewrite Forall_lookup in Hx. by eapply Hx. }
  destruct l; inv_step Hs; split; simpl in *; push_eqs; simpl in *;
    try done; try (intros; congruence); eauto;
    try (apply Forall_insert; [done|simpl]; try (intros; congruence);
         by auto);
    try (eapply Forall_impl; [exact Hx|simpl; by auto]).
  - apply Forall_app. split; [done|]. by repeat constructor.
  - apply Forall_app. split; [done|]. by repeat constructor.
  - apply Forall_insert; [done|]. intros _.
    match goal with Hi : workers s !! _ = Some WRet |- _ =>
      apply (Hxi _ _ Hi eq_refl) end.
  - by inversion He.
Qed.

Lemma Traced_run t s s' : Traced s → run fi t s = Some s' → Traced s'.
Proof.
  revert s. induction t as [|l t IH]; intros s HT Hr; simpl in Hr.
  - by simplify_eq.
  - destruct (step fi l s) as [s1|] eqn:Hs; [|done].
    eapply IH; [|done]. by eapply Traced_step.
Qed.

End Provenance.

(** X6. In every execution the error channel holds nothing but
    "canceled", and holds it only after [done] was closed: no failure of
    an item and no other event is ever reported there.  A worker leaves
    [digest] only because the intake was closed or because [done] was
    closed, never because an item failed. *)
Theorem error_provenance `{World} (fi : filesInfo) (t : list label)
    (s : state) :
  run fi t init = Some s →
  (∀ e, e ∈ errc s → e = canceled ∧ done s = true) ∧
  (∀ i w, workers s !! i = Some w → exited w = true →
     paths_closed s = true ∨ done s = true).
Proof.
  intros Hr.
  destruct (Traced_run fi _ _ _ (Traced_init) Hr) as [He Hf _ Hx].
  split.
  - intros e Hin. split.
    + rewrite Forall_forall in He. by apply He.
    + apply Hf. intros Hnil. rewrite Hnil in Hin. by apply elem_of_nil in Hin.
  - intros i w Hi. rewrite Forall_lookup in Hx. by eapply Hx.
Qed.

Lemma error_provenance_witness :
  let s := default init (run Demo.three Demo.early_cancel init) in
  run Demo.three Demo.early_cancel init = Some s ∧
  errc s = [canceled] ∧ done s = true.
Proof.
  intros s.
  assert (run Demo.three Demo.early_cancel init = Some s) as Hr
    by (vm_compute; reflexivity).
  assert (errc s = [canceled]) as He by (vm_compute; reflexivity).
  split; [exact Hr|split; [exact He|]].
  apply (proj1 (error_provenance Demo.three _ s Hr) canceled).
  rewrite He. by left.
Defined.

(** ** The only deadlock *)

(** X7. If, before the output channel is closed, no goroutine of the
    pipeline can move, then the state is this one: [done] is closed, the
    feeder waits at [errc <- errors.New("canceled")] with the slot already
    holding "canceled", the intake is open, the tracker waits in
    [wg.Wait()], and every worker has either finished or waits at
    [range paths], at least one of them waiting.  The pipeline has no
    other way of getting stuck. *)
Theorem only_deadlock `{World} (fi : filesInfo) (t : list label) (s : state) :
  run fi t init = Some s → c_closed s = false →
  (∀ l, is_env l = false → step fi l s = None) →
  ∃ rest,
    feeder s = FReport rest ∧ errc s = [canceled] ∧ done s = true ∧
    paths_closed s = false ∧ tracker s = TWait ∧
    Forall (λ w, w = WRecv ∨ w = WDone) (workers s) ∧
    ∃ i, workers s !! i = Some WRecv.
Proof.
  intros Hr Hc Hst. pose proof (Inv_reachable fi _ _ Hr) as HI.
  pose proof (inv_panic _ HI) as Hp.
  pose proof (Traced_run fi _ _ _ Traced_init Hr) as [He _ Hrep _].
  assert (∃ rest, feeder s = FReport rest) as [rest Hf].
  { destruct (feeder s) as [| |rest|] eqn:Hf; eauto;
      (destruct (progress fi s HI) as (l & s1 & Hl & Hs);
         [intros r; congruence|done|]);
      rewrite (Hst _ Hl) in Hs; done. }
  exists rest.
  assert (errc s = [canceled]) as Herr.
  { pose proof (Hst FeedReport eq_refl) as Hs. unfold step in Hs.
    rewrite Hp, Hf in Hs. pose proof (inv_errc _ HI) as Hlen.
    unfold errc_cap in *.
    destruct (errc s) as [|e [|e' b]]; simpl in *; try done; [|lia].
    inversion He; by simplify_eq. }
  assert (ctrl s = CEnd) as Hct.
  { pose proof (Hst Spawn eq_refl) as Hs. unfold step, spawn_step in Hs.
    rewrite Hp in Hs. by repeat case_match. }
  assert (∀ i w, workers s !! i = Some w → w = WRecv ∨ w = WDone) as Hws.
  { intros i w Hi. destruct w; auto.
    - pose proof (Hst (Transform i) eq_refl) as Hs. unfold step in Hs.
      by rewrite Hp, Hi in Hs.
    - pose proof (Hst (Publish i) eq_refl) as Hs. unfold step in Hs.
      by rewrite Hp, Hi, Hc in Hs.
    - pose proof (Hst (WgDone i) eq_refl) as Hs. unfold step in Hs.
      rewrite Hp, Hi in Hs.
      destruct (Inv_busy _ _ _ HI Hi eq_refl) as [Hwg _].
      destruct (Z.ltb_spec (wg s - 1) 0); [lia|done]. }
  assert (tracker s = TWait ∧ ∃ i, workers s !! i = Some WRecv) as [Ht Hex].
  { pose proof (inv_tracker _ HI) as Htr. pose proof (inv_c _ HI) as Hcc.
    pose proof (inv_wg _ HI) as Hwg. pose proof (inv_len _ HI) as Hlen.
    rewrite Hct in Hwg, Hlen. simpl in Hwg, Hlen.
    destruct (tracker s) eqn:Ht; simpl in Hcc.
    - destruct Htr as [Htr _]. specialize (Htr eq_refl). congruence.
    - split; [done|].
      destruct (workers_cases (workers s)) as [(i & w & Hi & Hw)|Hall].
      + exists i. destruct (Hws _ _ Hi) as [->| ->]; done.
      + pose proof (Hst WaitReturn eq_refl) as Hs. unfold step in Hs.
        rewrite Hp, Ht in Hs.
        rewrite (count_done_Forall _ Hall), Hlen in Hwg.
        destruct (Z.eqb_spec (wg s) 0); [done|lia].
    - pose proof (Hst CloseOut eq_refl) as Hs. unfold step in Hs.
      by rewrite Hp, Ht, Hc in Hs.
    - congruence. }
  split; [done|]. split; [done|]. split; [by eapply Hrep|].
  split; [by rewrite (inv_paths _ HI), Hf|]. split; [done|].
  split; [|done]. apply Forall_lookup. intros i w Hi. by eapply Hws.
Qed.

Lemma only_deadlock_witness :
  let s := default init (run Demo.three Demo.deadlock init) in
  run Demo.three Demo.deadlock init = Some s ∧
  ∃ rest, feeder s = FReport rest ∧ errc s = [canceled] ∧ done s = true.
Proof.
  intros s.
  assert (run Demo.three Demo.deadlock init = Some s) as Hr
    by (vm_compute; reflexivity).
  split; [exact Hr|].
  destruct (only_deadlock Demo.three Demo.deadlock s Hr
              ltac:(vm_compute; reflexivity)) as (rest & Hf & He & Hd & _).
  - apply stuck_sound; [vm_compute; reflexivity|].
    replace (workers s) with (replicate width WRecv)
      by (vm_compute; reflexivity).
    by rewrite length_replicate.
  - exists rest. split; [exact Hf|split; [exact He|exact Hd]].
Defined.

(** ** Shutdown when the caller drains the error channel *)

Lemma report_run `{World} (fi : filesInfo) t s s' :
  run fi t s = Some s' →
  length (errc s) + reports t = length (errc s') + takes t.
Proof.
  revert s. induction t as [|l t IH]; intros s Hr; simpl in Hr.
  - simplify_eq. unfold reports, takes. simpl. lia.
  - destruct (step fi l s) as [s1|] eqn:Hs; [|done].
    specialize (IH _ Hr). unfold reports, takes in *. simpl.
    assert (length (errc s) + (if is_report l then 1 else 0)
            = length (errc s1) + (if is_take l then 1 else 0)) as Hd.
    { destruct l; inv_step Hs; simpl; rewrite ?length_app; simpl;
        try done; try lia. }
    destruct (is_report l), (is_take l); simpl in *; lia.
Qed.

Lemma trace_split (t : list label) :
  length t = own_steps t + cancels t + takes t ∧ reports t ≤ own_steps t.
Proof.
  unfold own_steps, cancels, takes, reports.
  induction t as [|l t [IH1 IH2]]; [done|].
  rewrite filter_cons. destruct l; simpl; try case_decide; simpl in *;
    try done; lia.
Qed.

(** X8. If the caller receives from the error channel whenever it is full,
    shutdown always succeeds: in every execution, cancelled at any point
    or not, as long as the output channel is open some goroutine of the
    pipeline can move or the caller can take the pending error; and an
    execution over N entries has at most [2 * (3 * N + 3 * width + 7) + 1]
    steps in all, so the Closed state is reached. *)
Theorem drained_shutdown `{World} (fi : filesInfo) (t : list label)
    (s : state) :
  run fi t init = Some s →
  length t ≤ 2 * step_bound (length (fsi fi)) + 1 ∧
  (c_closed s = false →
     ∃ l s', l ≠ Cancel ∧ step fi l s = Some s').
Proof.
  intros Hr. pose proof (Inv_reachable fi _ _ Hr) as HI. split.
  - pose proof (fuel_run fi _ _ _ Inv_init Hr) as Hf.
    rewrite fuel_init in Hf.
    pose proof (cancel_run fi _ _ _ Hr) as Hc. simpl in Hc.
    pose proof (report_run fi _ _ _ Hr) as Hrep. simpl in Hrep.
    destruct (trace_split t) as [Hlen Hro].
    destruct (done s); lia.
  - intros Hc. pose proof (inv_panic _ HI) as Hp.
    destruct (feeder s) as [| |rest|] eqn:Hf.
    1,2,4: destruct (progress fi s HI) as (l & s1 & Hl & Hs);
      [intros r; congruence|done|];
      exists l, s1; split; [by intros ->|done].
    destruct (errc s) as [|e b] eqn:He.
    + exists FeedReport. eexists. split; [done|].
      unfold step. rewrite Hp, Hf, He. simpl. done.
    + exists TakeErr. eexists. split; [done|].
      unfold step. rewrite Hp, He. done.
Qed.

Lemma drained_shutdown_witness :
  let s := default init (run Demo.three Demo.deadlock init) in
  run Demo.three Demo.deadlock init = Some s ∧
  ∃ l s', l ≠ Cancel ∧ step Demo.three l s = Some s'.
Proof.
  intros s.
  assert (run Demo.three Demo.deadlock init = Some s) as Hr
    by (vm_compute; reflexivity).
  split; [exact Hr|].
  apply (proj2 (drained_shutdown Demo.three Demo.deadlock s Hr)).
  vm_compute; reflexivity.
Defined.

(** * main: the reader of the pipeline *)

Section Main.
Context `{World}.
Variable fi : filesInfo.

Lemma reachable_step l s s' :
  reachable fi s → step fi l s = Some s' → reachable fi s'.
Proof.
  intros [t Hr] Hs. exists (t ++ [l]). rewrite run_app, Hr. simpl.
  by rewrite Hs.
Qed.

Lemma step_out l s s' :
  step fi l s = Some s' → (∀ i, l ≠ Publish i) → out s' = out s.
Proof.
  intros Hs Hl. destruct l; inv_step Hs; simpl; try done.
  all: by destruct (Hl i).
Qed.

Lemma MInv_init : MInv fi minit.
Proof. split; [by exists []|done]. Qed.

Lemma MInv_step l m m' : MInv fi m → mstep fi l m = Some m' → MInv fi m'.
Proof.
  intros [[t0 Hr] Hm] Hs.
  pose proof (Inv_reachable fi _ _ Hr) as HI.
  pose proof (inv_panic _ HI) as Hp.
  pose proof (Traced_run fi _ _ _ (Traced_init) Hr) as [He Hfull _ _].
  unfold mstep in Hs. destruct (running (pc m)) eqn:Hrun; [|done].
  destruct l as [l| | |r].
  - (* a step of the pipeline *)
    assert (∀ p, step fi l (pipe m) = Some p → (∀ i, l ≠ Publish i) →
              MInv fi (with_pipe p m)) as Hgen.
    { intros p Hst Hnp. split; [by eapply reachable_step; [exists t0|]|].
      simpl. rewrite (step_out _ _ _ Hst Hnp).
      destruct (pc m); try done.
      destruct Hm as (? & ? & Hc).
      by destruct (closed_step fi _ _ _ HI Hc Hst) as (-> & _ & _). }
    destruct l; try done;
      try (destruct (step fi _ (pipe m)) as [p|] eqn:Hst; [|done];
           simplify_eq; by apply Hgen).
    destruct (pc m) eqn:Hpc; try done.
    destruct (workers (pipe m) !! i) as [[| |r| |]|] eqn:Hi; try done.
    destruct (step fi (Publish i) (pipe m)) as [p|] eqn:Hst; [|done].
    simplify_eq. split; [by eapply reachable_step; [exists t0|]|]. simpl.
    destruct Hm as [Ho Hse]. split; [|done].
    pose proof (inv_panic _ (Inv_step fi _ _ _ HI Hst)) as Hp'.
    unfold step in Hst. rewrite Hp, Hi in Hst.
    destruct (c_closed (pipe m)); simplify_eq; simpl in *; try done.
    by rewrite Ho.
  - (* the select *)
    destruct (pc m) eqn:Hpc; try done. destruct Hm as [Ho Hse].
    destruct (errc (pipe m)) as [|e b] eqn:Herr; simplify_eq.
    + split; [by exists t0|]. simpl. by rewrite Ho.
    + split.
      { eapply (reachable_step TakeErr); [by exists t0|].
        unfold step. rewrite Hp, Herr. done. }
      simpl. split; [done|]. left. split; [by eexists|].
      rewrite Hse. simpl. inversion He; simplify_eq.
      split; [done|]. apply Hfull. done.
  - (* the end of the range *)
    destruct (pc m) eqn:Hpc; try done. destruct Hm as [Ho Hse].
    destruct (c_closed (pipe m)) eqn:Hc; simplify_eq.
    split; [by exists t0|]. done.
  - (* the profile and the return *)
    destruct (pc m) eqn:Hpc; try done. destruct Hm as (Ho & Hse & Hc).
    destruct r as [e|].
    + simplify_eq. split; [by exists t0|]. simpl. split; [done|].
      right. rewrite Hse. eauto.
    + destruct (done (pipe m)) eqn:Hd; simplify_eq.
      * split; [by exists t0|]. done.
      * split.
        { eapply (reachable_step Cancel); [by exists t0|].
          unfold step. rewrite Hp, Hd. done. }
        done.
Qed.

Lemma MInv_run t m m' : MInv fi m → mrun fi t m = Some m' → MInv fi m'.
Proof.
  revert m. induction t as [|l t IH]; intros m HM Hr; simpl in Hr.
  - by simplify_eq.
  - destruct (mstep fi l m) as [m1|] eqn:Hs; [|done].
    eapply IH; [|done]. by eapply MInv_step.
Qed.

End Main.

(** X9. In every execution of main's loop, what main has printed is what
    it has received from the stream, in the order received, apart from a
    Result it still holds at its select.  Nothing is written to standard
    error while main runs.  main exits with status 1 in two cases only:
    from its select, after [done] was closed, printing "canceled" and
    dropping the one Result it had just received; or after the loop, when
    writing the heap profile failed.  The pipeline under main behaves as
    the pipeline alone: its state is one of its reachable states. *)
Theorem main_reports `{World} (fi : filesInfo) (t : list mlabel)
    (m : mstate) :
  mrun fi t minit = Some m →
  (∃ t', run fi t' init = Some (pipe m)) ∧
  stdout m `prefix_of` out (pipe m) ∧
  (running (pc m) = true →
     out (pipe m) = stdout m ++ in_hand (pc m) ∧ stderr m = []) ∧
  (∀ c, pc m = MExit c →
     c = 1%Z ∧
     ((∃ r, out (pipe m) = stdout m ++ [r]) ∧ stderr m = [canceled] ∧
      done (pipe m) = true
      ∨ out (pipe m) = stdout m ∧ (∃ e, stderr m = [e]) ∧
        c_closed (pipe m) = true)).
Proof.
  intros Hr. destruct (MInv_run fi _ _ _ (MInv_init fi) Hr) as [Hreach Hm].
  split; [done|]. split; [|split].
  - destruct (pc m); simpl in Hm.
    1,3,5,6: destruct Hm as [-> _]; done.
    + destruct Hm as [-> _]. by apply prefix_app_r.
    + destruct Hm as (_ & [([r ->] & _)|(-> & _)]); [|done].
      by apply prefix_app_r.
  - intros Hrun. destruct (pc m); simpl in *; try done.
    + destruct Hm as [-> ->]. by rewrite app_nil_r.
    + destruct Hm as (-> & -> & _). by rewrite app_nil_r.
  - intros c Hc. rewrite Hc in Hm. exact Hm.
Qed.

Lemma main_reports_witness :
  let t := map Pipe (Demo.at_select ++ [FeedDone; FeedReport; Publish 0])
           ++ [Select] in
  let m := default minit (mrun Demo.two t minit) in
  mrun Demo.two t minit = Some m ∧ pc m = MExit 1 ∧
  stderr m = [canceled] ∧ stdout m = [] ∧
  out (pipe m) = [digest_item "testdata/a.gz"].
Proof.
  intros t m.
  assert (mrun Demo.two t minit = Some m) as Hr by (vm_compute; reflexivity).
  assert (pc m = MExit 1) as Hpc by (vm_compute; reflexivity).
  destruct (main_reports Demo.two t m Hr) as (_ & _ & _ & Hex).
  destruct (Hex _ Hpc) as (_ & [(_ & Hse & _)|(_ & _ & Hc)]).
  - split; [exact Hr|split; [exact Hpc|split; [exact Hse|]]].
    split; vm_compute; reflexivity.
  - exfalso. revert Hc. vm_compute. discriminate.
Defined.

(** ** main when no signal arrives *)

Section Quiet.
Context `{World}.
Variable fi : filesInfo.

Lemma QInv_init : QInv fi minit.
Proof.
  split; simpl; try done;
    first [apply MInv_init|apply Inv_init|intros _; apply Clean_init].
Qed.

Lemma QInv_step l m m' :
  is_signal l = false → QInv fi m → mstep fi l m = Some m' →
  QInv fi m' ∧ mfuel fi m' < mfuel fi m.
Proof.
  intros Hl [Hm HI HC Hall Hpan Hex] Hs.
  pose proof (MInv_step fi _ _ _ Hm Hs) as Hm'.
  unfold mstep in Hs. destruct (running (pc m)) eqn:Hrun; [|done].
  specialize (HC eq_refl). unfold mfuel.
  destruct l as [l| | |r].
  - (* a step of the pipeline *)
    assert (∀ p, step fi l (pipe m) = Some p →
              Inv p ∧ Clean fi p ∧ fuel fi p < fuel fi (pipe m)) as Hgen.
    { intros p Hst. split; [by eapply Inv_step|]. split.
      - eapply Clean_step; [|done|done|done]. by intros ->.
      - pose proof (fuel_step fi _ _ _ HI Hst) as Hf.
        destruct l; simpl in *; done. }
    assert (∀ p, step fi l (pipe m) = Some p → m' = with_pipe p m →
              QInv fi m' ∧
              2 * fuel fi (pipe m') + pc_fuel (pc m')
              < 2 * fuel fi (pipe m) + pc_fuel (pc m)) as Hplain.
    { intros p Hst ->. destruct (Hgen _ Hst) as (? & ? & ?).
      split; [|cbn [pipe pc with_pipe]; lia].
      split; cbn [pipe pc stdout stderr with_pipe];
        [done|done|done|done|done|].
      intros c Hc. rewrite Hc in Hrun. done. }
    destruct l; try done;
      try (destruct (step fi _ (pipe m)) as [p|] eqn:Hst; [|done];
           simplify_eq; by apply (Hplain p)).
    destruct (pc m) eqn:Hpc; try done.
    destruct (workers (pipe m) !! i) as [[| |r| |]|] eqn:Hi; try done.
    destruct (step fi (Publish i) (pipe m)) as [p|] eqn:Hst; [|done].
    simplify_eq. destruct (Hgen _ eq_refl) as (? & ? & ?).
    split; [|cbn [pipe pc pc_fuel]; lia].
    split; cbn [pipe pc stdout stderr]; done.
  - (* the select *)
    destruct (pc m) eqn:Hpc; try done.
    rewrite (cl_errc _ _ HC) in Hs. simplify_eq.
    split; [|cbn [pipe pc pc_fuel]; lia].
    split; cbn [pipe pc stdout stderr]; done.
  - (* the end of the range *)
    destruct (pc m) eqn:Hpc; try done.
    destruct (c_closed (pipe m)) eqn:Hc; simplify_eq.
    split; [|cbn [pipe pc pc_fuel]; lia].
    split; cbn [pipe pc stdout stderr]; try done.
    intros _. destruct Hm as [_ Hm]. rewrite Hpc in Hm.
    destruct Hm as [<- _]. by apply Clean_closed.
  - (* the profile and the return *)
    destruct (pc m) eqn:Hpc; try done.
    specialize (Hall eq_refl).
    destruct Hm as [_ Hm]. rewrite Hpc in Hm. destruct Hm as (Ho & Hse & Hc).
    destruct r as [e|].
    + simplify_eq. split; [|cbn [pipe pc pc_fuel]; lia].
      split; cbn [pipe pc stdout stderr]; try done.
      intros c _. split; [done|]. rewrite Hse. eauto.
    + rewrite (cl_done _ _ HC) in Hs. simplify_eq.
      assert (fuel fi (set_done (pipe m)) = fuel fi (pipe m)) as Hfu
        by done.
      split; [|cbn [pipe pc pc_fuel]; lia].
      split; cbn [pipe pc stdout stderr]; try done.
      apply (Inv_step fi Cancel (pipe m)); [done|].
      unfold step. by rewrite (inv_panic _ HI), (cl_done _ _ HC).
Qed.

Lemma QInv_run t m m' :
  no_signal t = true → QInv fi m → mrun fi t m = Some m' →
  QInv fi m' ∧ length t + mfuel fi m' ≤ mfuel fi m.
Proof.
  revert m. induction t as [|l t IH]; intros m Hn HQ Hr; simpl in *.
  - simplify_eq. split; [done|lia].
  - destruct (mstep fi l m) as [m1|] eqn:Hs; [|done].
    apply andb_prop in Hn as [Hl Hn].
    assert (is_signal l = false) as Hl'.
    { destruct l as [[]| | |]; done. }
    destruct (QInv_step _ _ _ Hl' HQ Hs) as [HQ1 Hf].
    destruct (IH _ Hn HQ1 Hr) as [HQ' Hlen]. split; [done|lia].
Qed.

Lemma main_progress m :
  QInv fi m → loop_over (pc m) = false →
  ∃ l m', is_signal l = false ∧ mstep fi l m = Some m'.
Proof.
  intros [Hm HI HC _ _ _] Hlo.
  assert (running (pc m) = true) as Hrun by (by destruct (pc m)).
  specialize (HC Hrun).
  destruct (pc m) as [|r| | | |] eqn:Hpc; try done.
  - destruct (c_closed (pipe m)) eqn:Hc.
    + exists RangeEnd. eexists. split; [done|].
      unfold mstep. rewrite Hpc, Hc. done.
    + destruct (progress fi _ HI (cl_feeder _ _ HC) Hc) as (l & p & Hl & Hst).
      exists (Pipe l). unfold mstep. rewrite Hpc. simpl.
      destruct l; try done; try (rewrite Hst; eexists; by split).
      pose proof Hst as Hst'. unfold step in Hst'.
      rewrite (inv_panic _ HI) in Hst'.
      destruct (workers (pipe m) !! i) as [[| |r| |]|] eqn:Hi; try done.
      rewrite Hst. eexists. by split.
  - exists Select. eexists. split; [done|].
    unfold mstep. rewrite Hpc, (cl_errc _ _ HC). done.
Qed.

(** From any state of a run without signals, main can be driven to the
    end of its loop. *)
Lemma main_completes n m :
  mfuel fi m ≤ n → QInv fi m → running (pc m) = true →
  ∃ t m', no_signal t = true ∧ mrun fi t m = Some m' ∧ pc m' = MProfile ∧
          QInv fi m'.
Proof.
  revert m. induction n as [|n IH]; intros m Hn HQ Hrun.
  - unfold mfuel in Hn. destruct (pc m); simpl in *; try done; lia.
  - destruct (loop_over (pc m)) eqn:Hlo.
    + exists [], m. destruct (pc m); try done.
    + destruct (main_progress m HQ Hlo) as (l & m1 & Hl & Hs).
      destruct (QInv_step _ _ _ Hl HQ Hs) as [HQ1 Hf].
      assert (running (pc m1) = true) as Hrun1.
      { pose proof (cl_errc _ _ (q_clean _ _ HQ Hrun)) as Herr.
        clear -Hs Hlo Hl Herr. unfold mstep in Hs.
        destruct (pc m) eqn:Hpc; try done; simpl in Hs.
        all: destruct l as [[]| | |]; try done;
          rewrite ?Herr in Hs;
          repeat case_match; simplify_eq; simpl; rewrite ?Hpc; done. }
      destruct (IH m1 ltac:(lia) HQ1 Hrun1) as (t & m' & Ht & Hr & Hpc & HQ').
      exists (l :: t), m'. split; [|split; [|done]].
      * simpl. rewrite Ht. by destruct l as [[]| | |].
      * simpl. by rewrite Hs.
Qed.

Lemma mrun_app t1 t2 m :
  mrun fi (t1 ++ t2) m = mrun fi t1 m ≫= mrun fi t2.
Proof.
  revert m. induction t1 as [|l t1 IH]; intros m; simpl; [done|].
  destruct (mstep fi l m); simpl; [apply IH|done].
Qed.

End Quiet.

(** X10. When no signal arrives, every execution of main's loop over N
    entries has at most [2 * (3 * N + 3 * width + 7) + 2] steps; while the
    loop runs main can always go on (the select, a step of the pipeline,
    or the end of the range), so the loop ends; when it has ended main
    has printed exactly one line per enumerated entry.  main never exits
    from its select and never panics; it exits with status 1 only if
    writing the heap profile failed. *)
Theorem main_without_signal `{World} (fi : filesInfo) (t : list mlabel)
    (m : mstate) :
  mrun fi t minit = Some m → no_signal t = true →
  length t ≤ 2 * step_bound (length (fsi fi)) + 2 ∧
  pc m ≠ MPanicked ∧
  (∀ c, pc m = MExit c → c_closed (pipe m) = true ∧ ∃ e, stderr m = [e]) ∧
  (loop_over (pc m) = false →
     ∃ l m', is_signal l = false ∧ mstep fi l m = Some m') ∧
  (loop_over (pc m) = true →
     stdout m ≡ₚ expected fi (fsi fi) ∧
     length (stdout m) = length (fsi fi)).
Proof.
  intros Hr Hn.
  destruct (QInv_run fi _ _ _ Hn (QInv_init fi) Hr) as [HQ Hlen].
  split; [|split; [|split; [|split]]].
  - unfold mfuel, minit in Hlen. cbn [pipe pc pc_fuel] in Hlen.
    rewrite fuel_init in Hlen. lia.
  - apply (q_panic _ _ HQ).
  - apply (q_exit _ _ HQ).
  - by apply main_progress.
  - intros Hlo. pose proof (q_all _ _ HQ Hlo) as Hp. split; [done|].
    rewrite Hp. unfold expected. by rewrite length_map.
Qed.

Lemma main_without_signal_witness :
  let t := mschedule Demo.three 200 minit in
  let m := default minit (mrun Demo.three t minit) in
  mrun Demo.three t minit = Some m ∧ pc m = MProfile ∧
  length (stdout m) = 3.
Proof.
  intros t m.
  assert (mrun Demo.three t minit = Some m) as Hr
    by (vm_compute; reflexivity).
  split; [exact Hr|split; [vm_compute; reflexivity|]].
  destruct (main_without_signal Demo.three t m Hr
              ltac:(vm_compute; reflexivity)) as (_ & _ & _ & _ & Hall).
  exact (proj2 (Hall ltac:(vm_compute; reflexivity))).
Defined.

(** X11. For every enumeration there is an execution in which every
    entry is processed and printed, a signal arrives after the loop has
    ended, and main's deferred [close(done)] then finds [done] already
    closed by the signal handler: the program ends in a run-time panic
    although all work was done and nothing was reported. *)
Theorem signal_then_return_panics `{World} (fi : filesInfo) :
  ∃ t m, mrun fi t minit = Some m ∧ pc m = MPanicked ∧
         stdout m ≡ₚ expected fi (fsi fi) ∧ stderr m = [].
Proof.
  destruct (main_completes fi _ minit (le_n _) (QInv_init fi) eq_refl)
    as (t & m & Hn & Hr & Hpc & HQ).
  pose proof (q_clean _ _ HQ) as HC. rewrite Hpc in HC.
  specialize (HC eq_refl).
  pose proof (q_inv _ _ HQ) as HI.
  pose proof (q_all _ _ HQ) as Hall. rewrite Hpc in Hall.
  specialize (Hall eq_refl).
  destruct (q_main _ _ HQ) as [_ Hm]. rewrite Hpc in Hm.
  destruct Hm as (_ & Hse & _).
  exists (t ++ [Pipe Cancel; Profile None]).
  eexists. rewrite mrun_app, Hr. simpl.
  unfold mstep at 1. rewrite Hpc. simpl.
  unfold step. rewrite (inv_panic _ HI), (cl_done _ _ HC). simpl.
  unfold mstep. simpl. rewrite Hpc. simpl.
  split; [reflexivity|]. simpl. done.
Qed.

(** ** From the directory to the printed lines *)

(** X12. main, from the listing to the output.  If the directory cannot
    be read main prints that error and exits before starting anything.
    Otherwise it starts the pipeline on the regular files of the listing
    named "*.gz" and, when no signal arrives, by the end of its loop it
    has printed exactly one line for each of them, carrying that file's
    path. *)
Theorem main_lists_then_prints `{World} :
  match ioutil_ReadDir "./testdata/" with
  | Fail e => boot_main = BootExit e
  | Val l =>
      let fi := {| dir := "./testdata/"; fsi := List.filter keep l |} in
      boot_main = BootRun fi ∧
      ∀ t m, mrun fi t minit = Some m → no_signal t = true →
             loop_over (pc m) = true →
             map rpath (stdout m)
             ≡ₚ map (λ v, path_Join "./testdata/" (Name v))
                    (List.filter keep l)
  end.
Proof.
  unfold boot_main, gzFilesInfoIn.
  destruct (ioutil_ReadDir "./testdata/") as [l|e]; [|done].
  pose proof (prune_spec l []) as Hp. rewrite !app_nil_r in Hp.
  rewrite Hp. split; [done|].
  intros t m Hr Hn Hlo.
  destruct (QInv_run _ _ _ _ Hn (QInv_init _) Hr) as [HQ _].
  rewrite (q_all _ _ HQ Hlo).
  change (map rpath ?x) with (rpath <$> x). by rewrite rpath_expected.
Qed.

Lemma main_lists_then_prints_witness :
  let t := mschedule (H := Disk.world) Disk.listed 200 minit in
  let m := default minit (mrun (H := Disk.world) Disk.listed t minit) in
  boot_main (H := Disk.world) = BootRun Disk.listed ∧
  mrun (H := Disk.world) Disk.listed t minit = Some m ∧
  map rpath (stdout m)
  ≡ₚ ["testdata/a.gz"; "testdata/b.gz"; "testdata/c.gz"]%string.
Proof.
  intros t m.
  pose proof (main_lists_then_prints (H := Disk.world)) as Hw.
  change (ioutil_ReadDir (World := Disk.world) "./testdata/")
    with (Val Demo.listing) in Hw.
  destruct Hw as [Hb Hall].
  assert (mrun (H := Disk.world) Disk.listed t minit = Some m) as Hr
    by (vm_compute; reflexivity).
  split; [exact Hb|split; [exact Hr|]].
  apply (Hall t m Hr); vm_compute; reflexivity.
Defined.

(** ** The removal loop of gzFilesInfoIn *)

Lemma filter_keep_twice (l : list FileInfo) :
  List.filter keep (List.filter keep l) = List.filter keep l.
Proof.
  induction l as [|v l IH]; simpl; [done|].
  destruct (keep v) eqn:Hk; simpl; [|done]. by rewrite Hk, IH.
Qed.

(** X13. The removal loop of [gzFilesInfoIn], started with [n] iterations
    left on a slice of at least [n] entries, cleans exactly the first [n]
    entries and leaves the others in place, without indexing out of range;
    started beyond the end of the slice it panics at its first index
    expression.  On a listing that is already clean it removes nothing. *)
Theorem removal_loop (n : nat) (l : list FileInfo) :
  (n ≤ length l →
     prune n l = Some (List.filter keep (take n l) ++ drop n l)) ∧
  (length l < n → prune n l = None) ∧
  prune (length (List.filter keep l)) (List.filter keep l)
  = Some (List.filter keep l).
Proof.
  split; [|split].
  - intros Hn. pose proof (prune_spec (take n l) (drop n l)) as Hp.
    rewrite take_drop, length_take in Hp.
    by replace (n `min` length l) with n in Hp by lia.
  - intros Hn. destruct n as [|k]; [lia|]. simpl.
    rewrite (proj2 (lookup_ge_None l k)); [done|lia].
  - pose proof (prune_spec (List.filter keep l) []) as Hp.
    by rewrite !app_nil_r, filter_keep_twice in Hp.
Qed.

Lemma removal_loop_witness :
  prune 3 Demo.listing
  = Some [Demo.gz "a.gz"; Demo.gz "b.gz"; Demo.gz "notes.txt";
          Demo.gz "c.gz"] ∧
  prune 6 Demo.listing = None.
Proof.
  split.
  - apply (proj1 (removal_loop 3 Demo.listing)). vm_compute. lia.
  - apply (proj1 (proj2 (removal_loop 6 Demo.listing))). vm_compute. lia.
Defined.

(** ** What cancellation can throw away *)

Lemma exited_count_step `{World} (fi : filesInfo) l s s' :
  step fi l s = Some s' →
  exited_count s + (if is_abandon l then 1 else 0) ≤ exited_count s'.
Proof.
  intros Hs. unfold exited_count.
  destruct l; inv_step Hs; simpl; rewrite ?sum_list_with_app; simpl;
    try lia;
    match goal with
    | Hi : workers ?s !! ?i = Some ?w
      |- context [sum_list_with exit_bit (<[?i:=?w']> (workers ?s))] =>
        pose proof (sum_insert exit_bit _ _ _ w' Hi) as Hsum;
        unfold exit_bit in *; simpl in Hsum; lia
    end.
Qed.

Lemma exited_count_run `{World} (fi : filesInfo) t s s' :
  run fi t s = Some s' → exited_count s + abandons t ≤ exited_count s'.
Proof.
  revert s. induction t as [|l t IH]; intros s Hr; simpl in Hr.
  - simplify_eq. unfold abandons. simpl. lia.
  - destruct (step fi l s) as [s1|] eqn:Hs; [|done].
    pose proof (exited_count_step fi _ _ _ Hs) as Hst.
    specialize (IH _ Hr). unfold abandons in *. simpl.
    destruct (is_abandon l); simpl in *; lia.
Qed.

(** X14. Each worker drops at most one computed Result: in every
    execution the number of Results abandoned at the publishing select is
    at most the number of workers that have left [digest], hence at most
    [width], and none is abandoned before [done] is closed. *)
Theorem abandoned_results_bounded `{World} (fi : filesInfo) (t : list label)
    (s : state) :
  run fi t init = Some s →
  abandons t ≤ exited_count s ∧ abandons t ≤ width ∧
  (done s = false → abandons t = 0).
Proof.
  intros Hr. pose proof (Inv_reachable fi _ _ Hr) as HI.
  pose proof (exited_count_run fi _ _ _ Hr) as He.
  change (exited_count init) with 0 in He.
  assert (exited_count s ≤ length (workers s)) as Hle.
  { unfold exited_count. generalize (workers s). intros l.
    induction l as [|w l IH]; simpl; [done|].
    unfold exit_bit at 1. destruct (exited w); lia. }
  pose proof (inv_len _ HI). pose proof (inv_spawned _ HI).
  split; [lia|split; [lia|]].
  intros Hd. clear -Hr Hd. revert Hr. generalize init.
  induction t as [|l t IH]; intros s0 Hr; simpl in Hr; [done|].
  destruct (step fi l s0) as [s1|] eqn:Hs; [|done].
  assert (done s0 = false ∧ is_abandon l = false) as [Hd0 Hl].
  { pose proof (cancel_run fi _ _ _ Hr) as Hc. rewrite Hd in Hc.
    assert (done s1 = false) as Hd1 by (destruct (done s1); [lia|done]).
    destruct l; inv_step Hs; simpl in *; try done; try congruence. }
  unfold abandons in *. simpl. rewrite Hl. by apply (IH s1).
Qed.

Lemma abandoned_results_bounded_witness :
  let t := Demo.at_select ++ [Abandon 0] in
  let s := default init (run Demo.two t init) in
  run Demo.two t init = Some s ∧ abandons t = 1 ∧ abandons t ≤ width.
Proof.
  intros t s.
  assert (run Demo.two t init = Some s) as Hr by (vm_compute; reflexivity).
  split; [exact Hr|split; [vm_compute; reflexivity|]].
  exact (proj1 (proj2 (abandoned_results_bounded Demo.two t s Hr))).
Defined.
